(** * sipnet/listen.go: the TCP and UDP listener of the SIP stack

    A shallow embedding of [Listener] and of the functions of listen.go
    ([Listen], [branchJanitor], [handleTCPListening], [handleUDPListening],
    [AcceptRequest], [Close]), followed by the properties of the transport
    multiplexer that the design document states about them.

    Conventions of the embedding.
    - A goroutine is a function over the list of the results of its blocking
      calls, in the order in which they complete; an entry [Env o] of that
      list is a step that another goroutine takes on the shared [Listener]
      while this one waits.
    - [Listen], [Close], [AcceptRequest] and the two transport loops return,
      next to their result and the new [Listener], the list of the
      synchronisation and I/O actions they performed ([action]).  A send on
      the unbuffered [requestChannel] is listed where the source performs
      it; what follows it in a log is what the goroutine does once the item
      has been taken.
    - [time.Time] is a number of nanoseconds (a [Z]); [time.Duration] too. *)

From Stdlib Require Import ZArith String List Bool Lia.
From stdpp Require Import base gmap strings list.

Local Open Scope Z_scope.

(** ** Errors *)

Inductive error : Type :=
| ErrClosed                  (* errors.New("sip: closed") *)
| ErrInvalidBranch           (* errors.New("sip: invalid branch") *)
| ErrExternal (msg : string) (* an error value made outside listen.go *).

#[global] Instance error_eq_dec : EqDecision error.
Proof. solve_decision. Defined.

(** The error Go's net package reports for an operation on a socket that
    was closed before. *)
Definition errNetClosing : error :=
  ErrExternal "use of closed network connection".

(** ** Time *)

Definition Second : Z := 1000000000.
Definition maxDuration : Z := 2 ^ 63 - 1.
Definition minDuration : Z := - 2 ^ 63.

(** [t.Sub(u)]: the difference, saturated to the range of a Duration. *)
Definition Sub (t u : Z) : Z :=
  let d := t - u in
  if d >? maxDuration then maxDuration
  else if d <? minDuration then minDuration
  else d.

(** ** Sockets

    [tcpListener] and [udpListener] are sockets of package net.  The first
    Close releases the descriptor and reports what the operating system
    reports ([sock_fail]); a Close on a socket that is closed already
    releases nothing and reports [errNetClosing]. *)

Record Socket : Type := mkSocket {
  sock_open : bool;
  sock_fail : option error
}.

Definition sock_close (s : Socket) : option error * Socket :=
  if sock_open s then (sock_fail s, mkSocket false (sock_fail s))
  else (Some errNetClosing, s).

(** [new(sync.Mutex)] and [make(chan requestPackage)]. *)
Inductive Mutex : Type := new_Mutex.
Record Chan : Type := make_chan { chan_cap : nat }.

(** The three goroutines that [Listen] starts. *)
Inductive goroutine : Type :=
| go_branchJanitor
| go_handleTCPListening
| go_handleUDPListening.

(** [branch == "" || len(branch) < 8 || branch[:7] != "z9hG4bK"] *)
Definition invalid_branch (branch : string) : bool :=
  String.eqb branch ""
  || (String.length branch <? 8)%nat
  || negb (String.eqb (String.substring 0 7 branch) "z9hG4bK").

(** ** The rest of package sipnet

    Types and helpers that listen.go uses and that are declared in other
    files of the package.  [Conn] and [Request] are what [*Conn] and
    [*Request] point to, [NetConn] is [net.Conn], [Addr] is [net.Addr]. *)
Class Collaborators : Type := {
  Conn : Type;
  Request : Type;
  Via : Type;
  NetConn : Type;
  Addr : Type;
  (* req.Header.Get("Via") *)
  header_via : Request → string;
  (* ParseVia(s): inl via when the returned error is nil *)
  ParseVia : string → Via + error;
  (* via.Arguments.Get("branch") *)
  branch_arg : Via → string
}.

Section Sipnet.

Context `{Collaborators}.

Record requestPackage : Type := mkPackage {
  conn : option Conn;
  req : option Request;
  err : option error
}.

Record Listener : Type := mkListener {
  tcpListener : Socket;
  udpListener : Socket;
  closed : bool;
  requestChannel : Chan;
  receivedBranches : gmap string Z;
  branchMutex : Mutex;
  (* the two fields below are pointers that may be nil *)
  udpPool : option (gmap string Conn);
  udpPoolMutex : option Mutex
}.

Definition set_closed (b : bool) (l : Listener) : Listener :=
  mkListener (tcpListener l) (udpListener l) b (requestChannel l)
    (receivedBranches l) (branchMutex l) (udpPool l) (udpPoolMutex l).

Definition set_tcpListener (s : Socket) (l : Listener) : Listener :=
  mkListener s (udpListener l) (closed l) (requestChannel l)
    (receivedBranches l) (branchMutex l) (udpPool l) (udpPoolMutex l).

Definition set_udpListener (s : Socket) (l : Listener) : Listener :=
  mkListener (tcpListener l) s (closed l) (requestChannel l)
    (receivedBranches l) (branchMutex l) (udpPool l) (udpPoolMutex l).

Definition set_receivedBranches (m : gmap string Z) (l : Listener) : Listener :=
  mkListener (tcpListener l) (udpListener l) (closed l) (requestChannel l)
    m (branchMutex l) (udpPool l) (udpPoolMutex l).

(** What a goroutine does to the world outside its own variables. *)
Inductive action : Type :=
| ALock                                 (* l.branchMutex.Lock() *)
| AUnlock                               (* l.branchMutex.Unlock() *)
| ALookup (branch : string)             (* _, found := l.receivedBranches[branch] *)
| AStore (branch : string) (t : Z)      (* l.receivedBranches[branch] = t *)
| ASend (p : requestPackage)            (* listener.requestChannel <- p *)
| ASetClosed                            (* l.closed = true *)
| ACloseTCP                             (* tcpListener.Close() *)
| ACloseUDP                             (* udpListener.Close() *)
| ADrain                                (* closeLoop: receive until no sender waits *)
| ARegisterTCPConn (c : NetConn)        (* listener.registerTCPConn(conn) *)
| AGetUDPConnFromPool (a : Addr)        (* listener.getUDPConnFromPool(addr) *)
| AWriteReceivedUDP (a : Addr) (data : list Byte.byte) (* .writeReceivedUDP(data[:n]) *)
| AGo (g : goroutine)                   (* go g(listener) *).

(** ** Close *)

Definition Close (l : Listener) : option error * Listener * list action :=
  let l1 := set_closed true l in
  let '(err, tcp') := sock_close (tcpListener l1) in
  let l2 := set_tcpListener tcp' l1 in
  let '(uerr, udp') := sock_close (udpListener l2) in
  let l3 := set_udpListener udp' l2 in
  let err' := match err with
              | Some _ => err        (* if err != nil { l.udpListener.Close() } *)
              | None => uerr         (* else { err = l.udpListener.Close() } *)
              end in
  (err', l3, [ASetClosed; ACloseTCP; ACloseUDP; ADrain]).

(** ** AcceptRequest *)

(** How one turn of the [for] loop of [AcceptRequest] ends. *)
Inductive ctl : Type :=
| Continue
| Return (rq : option Request) (c : option Conn) (e : option error)
| Panic (* nil pointer dereference *).

(** Lines 146-168: the body of the loop once the receive at line 144 has
    yielded [resp]; [now] is what [time.Now()] gives at line 164. *)
Definition accept_iter (l : Listener) (resp : requestPackage) (now : Z)
  : ctl * Listener * list action :=
  match err resp with
  | None =>
      match req resp with
      | None => (Panic, l, [])   (* resp.req.Header with resp.req == nil *)
      | Some r =>
          match ParseVia (header_via r) with
          | inr e => (Return (req resp) (conn resp) (Some e), l, [])
          | inl via =>
              let branch := branch_arg via in
              if invalid_branch branch
              then (Return (req resp) (conn resp) (Some ErrInvalidBranch), l, [])
              else
                match receivedBranches l !! branch with
                | Some _ =>
                    (* Repeated message, ignore. *)
                    (Continue, l, [ALock; ALookup branch; AUnlock])
                | None =>
                    (Return (req resp) (conn resp) (err resp),
                     set_receivedBranches (<[branch := now]> (receivedBranches l)) l,
                     [ALock; ALookup branch; AStore branch now; AUnlock])
                end
          end
      end
  | Some _ => (Return (req resp) (conn resp) (err resp), l, [])
  end.

(** ** The janitor's sweep (lines 80-86)

    [nows b] is what [time.Now()] gives when the [range] loop visits the
    entry of [b]; the entry is deleted when its age exceeds 30 seconds. *)
Definition sweep (nows : string → Z) (l : Listener) : Listener :=
  set_receivedBranches
    (filter (λ kv : string * Z, ¬ (Sub (nows kv.1) kv.2 > 30 * Second))
            (receivedBranches l))
    l.

(** ** Steps of the other goroutines *)

Inductive op : Type :=
| OpClose                                   (* a call of Close *)
| OpSweep (nows : string → Z)               (* the janitor wakes up *)
| OpDeliver (resp : requestPackage) (now : Z) (* a turn of AcceptRequest's loop *).

Definition apply_op (o : op) (l : Listener) : Listener :=
  match o with
  | OpClose => (Close l).1.2
  | OpSweep nows => if closed l then l else sweep nows l
  | OpDeliver resp now => (accept_iter l resp now).1.2
  end.

(** What a goroutine observes: the result of its own blocking call, or a
    step of another goroutine. *)
Inductive event (X : Type) : Type :=
| Own (x : X)
| Env (o : op).
Arguments Own {X} x.
Arguments Env {X} o.

(** An item received from [requestChannel], and the clock at that time. *)
Definition arrival : Type := requestPackage * Z.

Inductive outcome : Type :=
| Returned (rq : option Request) (c : option Conn) (e : option error)
           (l' : Listener) (log : list action) (rest : list (event arrival))
| Blocked (l' : Listener) (log : list action)  (* still in <-l.requestChannel *)
| Panicked (l' : Listener) (log : list action).

Definition prepend (lg : list action) (o : outcome) : outcome :=
  match o with
  | Returned rq c e l' log rest => Returned rq c e l' (lg ++ log) rest
  | Blocked l' log => Blocked l' (lg ++ log)
  | Panicked l' log => Panicked l' (lg ++ log)
  end.

(** The loop from line 144 on: the goroutine waits in the receive. *)
Fixpoint receive (l : Listener) (evs : list (event arrival)) : outcome :=
  match evs with
  | [] => Blocked l []
  | Env o :: evs' => receive (apply_op o l) evs'
  | Own (resp, now) :: evs' =>
      match accept_iter l resp now with
      | (Return rq c e, l', lg) => Returned rq c e l' lg evs'
      | (Panic, l', lg) => Panicked l' lg
      | (Continue, l', lg) =>
          prepend lg
            (if closed l'
             then Returned None None (Some ErrClosed) l' [] evs'
             else receive l' evs')
      end
  end.

Definition AcceptRequest (l : Listener) (evs : list (event arrival)) : outcome :=
  if closed l
  then Returned None None (Some ErrClosed) l [] evs
  else receive l evs.

(** The [Listener] once the consumer has gone through [evs]. *)
Definition after (l : Listener) (evs : list (event arrival)) : Listener :=
  foldl (λ l ev, match ev with
                 | Own (resp, now) => apply_op (OpDeliver resp now) l
                 | Env o => apply_op o l
                 end) l evs.

(** ** branchJanitor

    An own event is the return of [time.Sleep]. *)
Inductive janitor_outcome : Type :=
| JanitorReturned (l' : Listener)
| JanitorSleeping (l' : Listener).

Fixpoint branchJanitor (l : Listener) (evs : list (event (string → Z)))
  : janitor_outcome :=
  match evs with
  | [] => JanitorSleeping l
  | Env o :: evs' => branchJanitor (apply_op o l) evs'
  | Own nows :: evs' =>
      if closed l then JanitorReturned l
      else branchJanitor (sweep nows l) evs'
  end.

(** ** The transport loops *)

(** What [tcpListener.Accept()] returns: [(conn, nil)] or [(_, err)]. *)
Inductive accept_result : Type :=
| Accepted (c : NetConn)
| AcceptFailed (e : error).

(** What [udpListener.ReadFrom(data)] returns, with the buffer it filled:
    [(n, addr, nil)] or [(_, _, err)]. *)
Inductive read_result : Type :=
| ReadOk (n : nat) (addr : Addr) (data : list Byte.byte)
| ReadFailed (e : error).

Inductive loop_outcome : Type :=
| Exited (l' : Listener) (log : list action)   (* returned; the deferred Close has run *)
| Waiting (l' : Listener) (log : list action)  (* still in Accept / ReadFrom *).

(** [requestPackage{conn: nil, req: nil, err: err}] *)
Definition error_item (e : error) : requestPackage :=
  mkPackage None None (Some e).

(** The [for] loops without the deferred call: [true] when the loop has
    reached a [return]. *)
Fixpoint tcp_loop (l : Listener) (evs : list (event accept_result))
  : bool * Listener * list action :=
  match evs with
  | [] => (false, l, [])
  | Env o :: evs' => tcp_loop (apply_op o l) evs'
  | Own (Accepted c) :: evs' =>
      let '(x, l', lg) := tcp_loop l evs' in
      (x, l', ARegisterTCPConn c :: lg)
  | Own (AcceptFailed e) :: _ =>
      if closed l then (true, l, [])
      else (true, l, [ASend (error_item e)])
  end.

Fixpoint udp_loop (l : Listener) (evs : list (event read_result))
  : bool * Listener * list action :=
  match evs with
  | [] => (false, l, [])
  | Env o :: evs' => udp_loop (apply_op o l) evs'
  | Own (ReadOk n addr data) :: evs' =>
      let '(x, l', lg) := udp_loop l evs' in
      (x, l', AGetUDPConnFromPool addr :: AWriteReceivedUDP addr (take n data) :: lg)
  | Own (ReadFailed e) :: _ =>
      if closed l then (true, l, [])
      else (true, l, [ASend (error_item e)])
  end.

(** [defer listener.Close()] runs when the loop returns. *)
Definition with_deferred_Close (r : bool * Listener * list action) : loop_outcome :=
  match r with
  | (true, l', lg) => Exited (Close l').1.2 (lg ++ (Close l').2)
  | (false, l', lg) => Waiting l' lg
  end.

Definition handleTCPListening (l : Listener) (evs : list (event accept_result))
  : loop_outcome :=
  with_deferred_Close (tcp_loop l evs).

Definition handleUDPListening (l : Listener) (evs : list (event read_result))
  : loop_outcome :=
  with_deferred_Close (udp_loop l evs).

(** ** Listen *)

(** The calls of package net that [Listen] makes. *)
Record NetStack : Type := mkNetStack {
  net_Listen : string → Socket + error;          (* net.Listen("tcp", addr) *)
  net_ResolveUDPAddr : string → Addr + error;    (* net.ResolveUDPAddr("udp", addr) *)
  net_ListenUDP : Addr → Socket + error          (* net.ListenUDP("udp", udpAddr) *)
}.

Definition Listen (net : NetStack) (addr : string)
  : (Listener + error) * list action :=
  match net_Listen net addr with
  | inr e => (inr e, [])
  | inl tcp =>
      match net_ResolveUDPAddr net addr with
      | inr e => (inr e, [ACloseTCP])
      | inl udpAddr =>
          match net_ListenUDP net udpAddr with
          | inr e => (inr e, [ACloseTCP])
          | inl udp =>
              (inl (mkListener tcp udp false (make_chan 0) ∅ new_Mutex None None),
               [AGo go_branchJanitor; AGo go_handleTCPListening;
                AGo go_handleUDPListening])
          end
      end
  end.

(** ** Vocabulary of the statements *)

(** [resp] is a request that the codec parsed and whose Via carries the
    well-formed branch [b]. *)
Definition carries (resp : requestPackage) (b : string) : Prop :=
  err resp = None ∧
  ∃ r via, req resp = Some r ∧ ParseVia (header_via r) = inl via ∧
           branch_arg via = b ∧ invalid_branch b = false.

(** The clock is monotone: a sweep that runs before time [t] reads the
    clock, for the entry of [b], no later than [t]. *)
Definition sweeps_before (b : string) (t : Z) (ev : event arrival) : Prop :=
  match ev with
  | Env (OpSweep nows) => nows b ≤ t
  | _ => True
  end.

(** The event is a retransmission of a request with branch [b]. *)
Definition retransmits (b : string) (ev : event arrival) : Prop :=
  match ev with
  | Own (resp, _) => carries resp b
  | Env _ => False
  end.

Definition steps (l : Listener) (ops : list op) : Listener :=
  foldl (λ l o, apply_op o l) l ops.

(** The steps of the other goroutines among [evs]. *)
Definition env_steps {X : Type} (l : Listener) (evs : list (event X)) : Listener :=
  foldl (λ l ev, match ev with Env o => apply_op o l | Own _ => l end) l evs.

Definition accept_ok (ev : event accept_result) : Prop :=
  match ev with Own (AcceptFailed _) => False | _ => True end.

Definition read_ok (ev : event read_result) : Prop :=
  match ev with Own (ReadFailed _) => False | _ => True end.

Definition tcp_actions (evs : list (event accept_result)) : list action :=
  flat_map (λ ev, match ev with
                  | Own (Accepted c) => [ARegisterTCPConn c]
                  | _ => []
                  end) evs.

Definition udp_actions (evs : list (event read_result)) : list action :=
  flat_map (λ ev, match ev with
                  | Own (ReadOk n addr data) =>
                      [AGetUDPConnFromPool addr; AWriteReceivedUDP addr (take n data)]
                  | _ => []
                  end) evs.

Definition log_of (o : loop_outcome) : list action :=
  match o with Exited _ log | Waiting _ log => log end.

(** The items that a log hands to [requestChannel]. *)
Definition sends (log : list action) : list requestPackage :=
  flat_map (λ a, match a with ASend p => [p] | _ => [] end) log.

(** *** Three sentences of the design document, as they are written *)

(** "For all branch identifiers B seen twice with a real gap exceeding
    the retention window between arrivals, the consumption operation
    returns the request twice": [p1] arrives at [t1], the events [mid]
    follow, [p2] arrives at [t2]. *)
Definition returned_twice_after_window
    (l : Listener) (b : string) (p1 p2 : requestPackage) (t1 t2 : Z)
    (mid : list (event arrival)) : Prop :=
  carries p1 b → carries p2 b → t2 - t1 > 30 * Second →
  ∃ l1 lg1 l2 lg2,
    AcceptRequest l (Own (p1, t1) :: mid ++ [Own (p2, t2)])
      = Returned (req p1) (conn p1) None l1 lg1 (mid ++ [Own (p2, t2)]) ∧
    AcceptRequest l1 (mid ++ [Own (p2, t2)])
      = Returned (req p2) (conn p2) None l2 lg2 [].

(** "A request whose Via header is missing, whose branch is absent,
    shorter than 8 characters, or lacks the required 7-character prefix,
    is returned with an invalid-branch error ... and is never cached". *)
Definition rejected_with_ErrInvalidBranch
    (l : Listener) (resp : requestPackage) (now : Z) : Prop :=
  ∀ r, closed l = false → err resp = None → req resp = Some r →
    match ParseVia (header_via r) with
    | inr _ => True
    | inl via => invalid_branch (branch_arg via) = true
    end →
    ∀ rest, AcceptRequest l (Own (resp, now) :: rest)
            = Returned (req resp) (conn resp) (Some ErrInvalidBranch) l [] rest.

(** "A second close call must not panic, error-propagate spuriously, or
    double-release resources": after a first [Close] that reported no
    error, a second one reports none and changes nothing, the sockets
    included. *)
Definition second_Close_is_silent (l : Listener) : Prop :=
  (Close l).1.1 = None →
  (Close (Close l).1.2).1.1 = None ∧
  (Close (Close l).1.2).1.2 = (Close l).1.2.

End Sipnet.

Arguments Own {_ X} x.
Arguments Env {_ X} o.

(** ** A small instance to run the model on

    A stand-in for the codec: a request is its list of header fields, a
    Via value is "SIP/2.0/<transport> <host>" followed by parameters, and
    the parsed Via is reduced to the text after ";branch=". *)

Fixpoint demo_header_get (key : string) (h : list (string * string)) : string :=
  match h with
  | [] => ""
  | (k, v) :: h' => if String.eqb k key then v else demo_header_get key h'
  end.

Definition demo_ParseVia (s : string) : string + error :=
  if String.prefix "SIP/2.0/" s then
    match String.index 0 ";branch=" s with
    | Some i => inl (String.substring (i + 8) (String.length s) s)
    | None => inl ""
    end
  else inr (ErrExternal "sip: malformed via").

Definition demo : Collaborators := {|
  Conn := string;
  Request := list (string * string);
  Via := string;
  NetConn := string;
  Addr := string;
  header_via := demo_header_get "Via";
  ParseVia := demo_ParseVia;
  branch_arg := λ via, via
|}.

Definition demo_net : @NetStack demo :=
  @mkNetStack demo (λ _, inl (mkSocket true None))
                   (λ addr, inl addr)
                   (λ _, inl (mkSocket true None)).

(** A network stack on which the UDP port is taken. *)
Definition demo_net_udp_taken : @NetStack demo :=
  @mkNetStack demo (λ _, inl (mkSocket true None))
                   (λ addr, inl addr)
                   (λ _, inr (ErrExternal "listen udp: address already in use")).

(** The listener that [Listen] builds on [demo_net]. *)
Definition demo_listener : @Listener demo :=
  @mkListener demo (mkSocket true None) (mkSocket true None) false (make_chan 0)
    ∅ new_Mutex None None.

(** A request with the given branch, from the given peer. *)
Definition demo_request (peer branch : string) : @requestPackage demo :=
  @mkPackage demo (Some peer)
    (Some [("Via", "SIP/2.0/UDP pc33.example.com;branch=" ++ branch)%string])
    None.

(** A request without a Via header. *)
Definition demo_no_via (peer : string) : @requestPackage demo :=
  @mkPackage demo (Some peer) (Some [("To", "sip:bob@example.com")]) None.

(** The janitor wakes up when every clock reading is [t]. *)
Definition demo_wake (t : Z) : @event demo (@arrival demo) :=
  @Env demo _ (@OpSweep demo (λ _, t)).

(** ** Vocabulary of the further properties *)

Section Further.

Context `{Collaborators}.

(** Every key of the cache passed the test of line 153. *)
Definition cache_valid (l : Listener) : Prop :=
  ∀ b t, receivedBranches l !! b = Some t → invalid_branch b = false.

Definition is_own {X : Type} (ev : event X) : Prop :=
  match ev with Own _ => True | Env _ => False end.

Definition is_env {X : Type} (ev : event X) : Prop :=
  match ev with Own _ => False | Env _ => True end.

(** The janitor does not run. *)
Definition no_sweep (ev : event arrival) : Prop :=
  match ev with Env (OpSweep _) => False | _ => True end.

Definition outcome_log (o : outcome) : list action :=
  match o with
  | Returned _ _ _ _ log _ | Blocked _ log | Panicked _ log => log
  end.

(** Reading a log with the state of [branchMutex] in hand ([true]: held):
    [None] when the mutex is locked while held or unlocked while free, or
    when the map is read or written while the mutex is free; otherwise the
    state of the mutex at the end. *)
Fixpoint guarded (held : bool) (log : list action) : option bool :=
  match log with
  | [] => Some held
  | ALock :: log' => if held then None else guarded true log'
  | AUnlock :: log' => if held then guarded false log' else None
  | ALookup _ :: log' | AStore _ _ :: log' =>
      if held then guarded true log' else None
  | _ :: log' => guarded held log'
  end.

(** The branch that lines 147-152 find in a request. *)
Definition branch_of (r : Request) : option string :=
  match ParseVia (header_via r) with
  | inl via => Some (branch_arg via)
  | inr _ => None
  end.

(** A caller that calls AcceptRequest [n] times in a row, each call on the
    listener and the pending events that the call before left: what the
    calls return, in order.  The caller stops at a call that does not
    return. *)
Fixpoint calls (n : nat) (l : Listener) (evs : list (event arrival))
  : list (option Request * option Conn * option error) :=
  match n with
  | O => []
  | S n' =>
      match AcceptRequest l evs with
      | Returned rq c e l' _ rest => (rq, c, e) :: calls n' l' rest
      | Blocked _ _ | Panicked _ _ => []
      end
  end.

(** The branches of the requests that were returned with a nil error. *)
Definition delivered_branches
    (rs : list (option Request * option Conn * option error)) : list string :=
  omap (λ r : option Request * option Conn * option error,
          match r with
          | (Some rq, _, None) => branch_of rq
          | _ => None
          end) rs.

(** The event is the arrival of a request whose branch is in the cache of
    [l]. *)
Definition suppressed (l : Listener) (ev : event arrival) : Prop :=
  match ev with
  | Own (resp, _) => ∃ b t, carries resp b ∧ receivedBranches l !! b = Some t
  | Env _ => False
  end.

End Further.

(** * Properties *)

Section Properties.

Context `{Collaborators}.

(** ** Time and the cache *)

(** The saturation of [Sub] is far from the retention window. *)
Lemma Sub_gt_window (t u : Z) : Sub t u > 30 * Second ↔ t - u > 30 * Second.
Proof.
  unfold Sub, maxDuration, minDuration, Second.
  destruct (Z.gtb_spec (t - u) (2 ^ 63 - 1)), (Z.ltb_spec (t - u) (- 2 ^ 63)); lia.
Qed.

(** A sweep keeps exactly the entries whose age is at most 30 seconds. *)
Lemma sweep_lookup nows (l : Listener) (b : string) (t : Z) :
  receivedBranches (sweep nows l) !! b = Some t ↔
  receivedBranches l !! b = Some t ∧ nows b - t ≤ 30 * Second.
Proof.
  unfold sweep; simpl. rewrite map_lookup_filter_Some. simpl.
  rewrite Sub_gt_window. split; intros [? ?]; split; auto; lia.
Qed.

Lemma sweep_closed nows (l : Listener) : closed (sweep nows l) = closed l.
Proof. reflexivity. Qed.

(** ** One turn of AcceptRequest's loop *)

Lemma accept_iter_found (l : Listener) resp now b t :
  carries resp b → receivedBranches l !! b = Some t →
  accept_iter l resp now = (Continue, l, [ALock; ALookup b; AUnlock]).
Proof.
  intros (He & r & via & Hr & Hv & Hb & Hok) Hl. unfold accept_iter.
  rewrite He, Hr, Hv, Hb, Hok, Hl. reflexivity.
Qed.

Lemma accept_iter_fresh (l : Listener) resp now b :
  carries resp b → receivedBranches l !! b = None →
  accept_iter l resp now =
    (Return (req resp) (conn resp) None,
     set_receivedBranches (<[b := now]> (receivedBranches l)) l,
     [ALock; ALookup b; AStore b now; AUnlock]).
Proof.
  intros (He & r & via & Hr & Hv & Hb & Hok) Hl. unfold accept_iter.
  rewrite He, Hr, Hv, Hb, Hok, Hl. reflexivity.
Qed.

(** [accept_iter] never overwrites an entry of the cache. *)
Lemma accept_iter_keeps (l : Listener) resp now b t :
  receivedBranches l !! b = Some t →
  receivedBranches (accept_iter l resp now).1.2 !! b = Some t.
Proof.
  intros Hl. unfold accept_iter.
  destruct (err resp); [exact Hl|].
  destruct (req resp) as [r|]; [|exact Hl].
  destruct (ParseVia (header_via r)) as [via|e]; [|exact Hl].
  destruct (invalid_branch (branch_arg via)); [exact Hl|].
  destruct (receivedBranches l !! branch_arg via) eqn:Hb; [exact Hl|].
  simpl. rewrite lookup_insert_ne; [exact Hl|]. congruence.
Qed.

Lemma accept_iter_closed (l : Listener) resp now :
  closed (accept_iter l resp now).1.2 = closed l.
Proof.
  unfold accept_iter.
  repeat (match goal with
          | |- context [match ?x with _ => _ end] => destruct x
          end); reflexivity.
Qed.

(** ** Close *)

Lemma Close_state (l : Listener) :
  (Close l).1.2 =
    set_udpListener (sock_close (udpListener l)).2
      (set_tcpListener (sock_close (tcpListener l)).2 (set_closed true l)).
Proof.
  unfold Close. simpl.
  destruct (sock_close (tcpListener l)), (sock_close (udpListener l)).
  reflexivity.
Qed.

Lemma Close_log (l : Listener) :
  (Close l).2 = [ASetClosed; ACloseTCP; ACloseUDP; ADrain].
Proof.
  unfold Close. simpl.
  destruct (sock_close (tcpListener l)), (sock_close (udpListener l)).
  reflexivity.
Qed.

Lemma Close_error (l : Listener) :
  (Close l).1.1 =
    match (sock_close (tcpListener l)).1 with
    | Some e => Some e
    | None => (sock_close (udpListener l)).1
    end.
Proof.
  unfold Close. simpl.
  destruct (sock_close (tcpListener l)) as [[e|] ?],
           (sock_close (udpListener l)); reflexivity.
Qed.

Lemma Close_closed (l : Listener) : closed (Close l).1.2 = true.
Proof. rewrite Close_state. reflexivity. Qed.

Lemma Close_receivedBranches (l : Listener) :
  receivedBranches (Close l).1.2 = receivedBranches l.
Proof. rewrite Close_state. reflexivity. Qed.

Lemma sock_close_open (s : Socket) : sock_open (sock_close s).2 = false.
Proof. unfold sock_close. destruct (sock_open s) eqn:E; simpl; auto. Qed.

Lemma sock_close_again (s : Socket) :
  sock_close (sock_close s).2 = (Some errNetClosing, (sock_close s).2).
Proof.
  unfold sock_close at 1. rewrite sock_close_open. reflexivity.
Qed.

(** ** The closed flag is never cleared *)

Lemma apply_op_closed o (l : Listener) :
  closed l = true → closed (apply_op o l) = true.
Proof.
  intros Hc. destruct o; simpl.
  - apply Close_closed.
  - rewrite Hc. exact Hc.
  - rewrite accept_iter_closed. exact Hc.
Qed.

Lemma steps_closed ops (l : Listener) :
  closed l = true → closed (steps l ops) = true.
Proof.
  revert l. induction ops as [|o ops IH]; intros l Hc; simpl; [exact Hc|].
  apply IH, apply_op_closed, Hc.
Qed.

(** ** The consumer's view of the listener *)

Lemma after_app (l : Listener) evs1 evs2 :
  after l (evs1 ++ evs2) = after (after l evs1) evs2.
Proof. unfold after. apply foldl_app. Qed.

(** [AcceptRequest] returns with the listener in the state in which the
    events it consumed leave it. *)
Lemma receive_after (l : Listener) evs :
  match receive l evs with
  | Returned _ _ _ l' _ rest =>
      ∃ used, evs = used ++ rest ∧ l' = after l used
  | Blocked l' _ => l' = after l evs
  | Panicked _ _ => True
  end.
Proof.
  revert l. induction evs as [|[[resp now]|o] evs IH]; intros l; simpl.
  - reflexivity.
  - destruct (accept_iter l resp now) as [[c l'] lg] eqn:E.
    assert (Hl' : l' = (accept_iter l resp now).1.2) by (rewrite E; reflexivity).
    destruct c as [|rq cn e|]; simpl.
    + destruct (closed l') eqn:Hc; simpl.
      * exists [Own (resp, now)]. split; [reflexivity|]. simpl. congruence.
      * specialize (IH l'). destruct (receive l' evs) as [? ? ? l'' ? rest|l''|]; simpl.
        -- destruct IH as (used & -> & ->).
           exists (Own (resp, now) :: used). split; [reflexivity|]. simpl. congruence.
        -- subst l''. simpl. congruence.
        -- exact I.
    + exists [Own (resp, now)]. split; [reflexivity|]. simpl. congruence.
    + exact I.
  - specialize (IH (apply_op o l)).
    destruct (receive (apply_op o l) evs) as [? ? ? l'' ? rest|l''|]; simpl.
    + destruct IH as (used & -> & ->). exists (Env o :: used). split; reflexivity.
    + exact IH.
    + exact I.
Qed.

Lemma AcceptRequest_after (l : Listener) evs rq c e l' log rest :
  AcceptRequest l evs = Returned rq c e l' log rest →
  ∃ used, evs = used ++ rest ∧ l' = after l used.
Proof.
  unfold AcceptRequest. destruct (closed l).
  - intros [= <- <- <- <- <- <-]. exists []. split; reflexivity.
  - intros E. pose proof (receive_after l evs) as R. rewrite E in R. exact R.
Qed.

(** Within the retention window no step removes the entry of [b]. *)
Lemma after_keeps (l : Listener) (b : string) (t1 t2 : Z) mid :
  receivedBranches l !! b = Some t1 →
  t2 - t1 ≤ 30 * Second →
  Forall (sweeps_before b t2) mid →
  receivedBranches (after l mid) !! b = Some t1.
Proof.
  intros Hl Hw Hmid. revert l Hl.
  induction Hmid as [|ev mid Hev _ IH]; intros l Hl; [exact Hl|].
  unfold after in *. simpl. apply IH.
  destruct ev as [[resp now]|[|nows|resp now]]; simpl in *.
  - apply accept_iter_keeps, Hl.
  - rewrite Close_receivedBranches. exact Hl.
  - destruct (closed l); [exact Hl|].
    apply sweep_lookup. split; [exact Hl|lia].
  - apply accept_iter_keeps, Hl.
Qed.

(** When the receive yields a retransmission of a cached branch, the
    loop drops it and starts over at line 141. *)
Lemma receive_duplicate (l : Listener) resp now b t rest :
  carries resp b → receivedBranches l !! b = Some t →
  receive l (Own (resp, now) :: rest)
    = prepend [ALock; ALookup b; AUnlock] (AcceptRequest l rest).
Proof.
  intros Hc Hl. simpl. rewrite (accept_iter_found _ _ _ _ _ Hc Hl).
  reflexivity.
Qed.

(** ** Duplicate suppression *)

(** C1: a branch that arrives twice within the retention window is handed
    to the caller once.  The first arrival, at [t1], is returned and its
    branch recorded; when the second arrives at [t2], no more than 30
    seconds later and after whatever happened in between ([mid]: other
    arrivals, sweeps of the janitor, calls of Close), the turn of the loop
    that receives it finds the branch, leaves the listener as it is and
    ends in [continue] between Lock and Unlock: nothing is returned for
    it, and the call goes on as a fresh pass through the loop over what
    arrives next. *)
Theorem C1_retransmission_within_window_dropped
    (l : Listener) (b : string) (p1 p2 : requestPackage) (t1 t2 : Z)
    (mid rest : list (event arrival)) :
  closed l = false →
  receivedBranches l !! b = None →
  carries p1 b → carries p2 b →
  t2 - t1 ≤ 30 * Second →
  Forall (sweeps_before b t2) mid →
  let l1 := set_receivedBranches (<[b := t1]> (receivedBranches l)) l in
  let l2 := after l1 mid in
  AcceptRequest l (Own (p1, t1) :: mid ++ Own (p2, t2) :: rest)
    = Returned (req p1) (conn p1) None l1
        [ALock; ALookup b; AStore b t1; AUnlock]
        (mid ++ Own (p2, t2) :: rest)
  ∧ accept_iter l2 p2 t2 = (Continue, l2, [ALock; ALookup b; AUnlock])
  ∧ receive l2 (Own (p2, t2) :: rest)
    = prepend [ALock; ALookup b; AUnlock] (AcceptRequest l2 rest).
Proof.
  intros Hopen Hfresh Hp1 Hp2 Hw Hmid l1 l2.
  assert (Hl2 : receivedBranches l2 !! b = Some t1).
  { apply (after_keeps l1 b t1 t2); [|exact Hw|exact Hmid].
    subst l1. simpl. apply lookup_insert_eq. }
  split; [|split].
  - unfold AcceptRequest. rewrite Hopen. simpl.
    rewrite (accept_iter_fresh _ _ _ _ Hp1 Hfresh). reflexivity.
  - exact (accept_iter_found _ _ _ _ _ Hp2 Hl2).
  - exact (receive_duplicate _ _ _ _ _ _ Hp2 Hl2).
Qed.

(** C10: suppressing a duplicate changes nothing in the listener; in
    particular the time stored for the branch is not refreshed, so after
    any number of retransmissions the entry still holds the time of the
    first delivery. *)
Theorem C10_suppression_leaves_cache
    (l : Listener) (b : string) (t : Z) (dups : list (event arrival)) :
  receivedBranches l !! b = Some t →
  Forall (retransmits b) dups →
  (∀ resp now, carries resp b →
     accept_iter l resp now = (Continue, l, [ALock; ALookup b; AUnlock]))
  ∧ after l dups = l
  ∧ receivedBranches (after l dups) !! b = Some t.
Proof.
  intros Hl Hd.
  assert (Hafter : after l dups = l).
  { induction Hd as [|[[resp now]|o] dups Hev _ IH]; [reflexivity| |destruct Hev].
    unfold after in *. simpl.
    rewrite (accept_iter_found _ _ _ _ _ Hev Hl). exact IH. }
  split; [|split].
  - intros resp now Hc. exact (accept_iter_found _ _ _ _ _ Hc Hl).
  - exact Hafter.
  - rewrite Hafter. exact Hl.
Qed.

(** C2, amended: AcceptRequest never looks at the age of an entry; the
    only thing that ends a suppression is a sweep of the janitor, which
    deletes the entry when its age at that moment exceeds 30 seconds.
    With the branch of [p2] recorded at [t1] in an open listener: a
    second arrival that no sweep precedes is dropped whatever its time
    [t2]; if a sweep that reads the clock more than 30 seconds after [t1]
    comes first, the second arrival is returned and recorded anew; if the
    sweep reads the clock earlier, the arrival is dropped.  Such a sweep is
    what branchJanitor does each time it wakes up. *)
Theorem C2_entry_expires_only_at_a_sweep
    (l : Listener) (b : string) (p2 : requestPackage) (t1 t2 : Z)
    (nows : string → Z) (rest : list (event arrival)) :
  closed l = false →
  receivedBranches l !! b = Some t1 →
  carries p2 b →
  AcceptRequest l (Own (p2, t2) :: rest)
    = prepend [ALock; ALookup b; AUnlock] (AcceptRequest l rest)
  ∧ (nows b - t1 > 30 * Second →
     AcceptRequest l (Env (OpSweep nows) :: Own (p2, t2) :: rest)
       = Returned (req p2) (conn p2) None
           (set_receivedBranches
              (<[b := t2]> (receivedBranches (sweep nows l))) (sweep nows l))
           [ALock; ALookup b; AStore b t2; AUnlock] rest)
  ∧ (nows b - t1 ≤ 30 * Second →
     AcceptRequest l (Env (OpSweep nows) :: Own (p2, t2) :: rest)
       = prepend [ALock; ALookup b; AUnlock] (AcceptRequest (sweep nows l) rest))
  ∧ branchJanitor l [Own nows] = JanitorSleeping (apply_op (OpSweep nows) l).
Proof.
  intros Hopen Hl Hp2. split; [|split; [|split]]; [| | |simpl; rewrite Hopen; reflexivity].
  - unfold AcceptRequest at 1. rewrite Hopen.
    exact (receive_duplicate _ _ _ _ _ _ Hp2 Hl).
  - intros Hold. unfold AcceptRequest. rewrite Hopen. simpl. rewrite Hopen.
    assert (Hgone : receivedBranches (sweep nows l) !! b = None).
    { destruct (receivedBranches (sweep nows l) !! b) as [t|] eqn:E; [|reflexivity].
      apply sweep_lookup in E as [E1 E2]. rewrite Hl in E1. inversion E1. lia. }
    rewrite (accept_iter_fresh _ _ _ _ Hp2 Hgone). reflexivity.
  - intros Hyoung. unfold AcceptRequest at 1. rewrite Hopen. simpl. rewrite Hopen.
    assert (Hkept : receivedBranches (sweep nows l) !! b = Some t1).
    { apply sweep_lookup. split; [exact Hl|exact Hyoung]. }
    rewrite (accept_iter_found _ _ _ _ _ Hp2 Hkept). reflexivity.
Qed.

(** ** Requests without a usable branch *)

Lemma invalid_branch_true (b : string) :
  invalid_branch b = true ↔
  b = "" ∨ (String.length b < 8)%nat ∨ String.substring 0 7 b ≠ "z9hG4bK".
Proof.
  unfold invalid_branch.
  rewrite !orb_true_iff, negb_true_iff, String.eqb_eq, Nat.ltb_lt, String.eqb_neq.
  tauto.
Qed.

(** C3, amended: a parsed request (no error on the item) whose Via does
    not parse is returned, with its connection, together with the error
    that ParseVia reported; one whose Via parses but whose branch is
    empty, shorter than 8 bytes or does not start with "z9hG4bK" is
    returned, with its connection, together with ErrInvalidBranch.  In
    both cases the listener, and so the cache, is left as it was, and
    the mutex is not even taken. *)
Theorem C3_unusable_branch_returned_uncached
    (l : Listener) (resp : requestPackage) (r : Request) (now : Z)
    (rest : list (event arrival)) :
  closed l = false →
  err resp = None →
  req resp = Some r →
  match ParseVia (header_via r) with
  | inr e =>
      AcceptRequest l (Own (resp, now) :: rest)
        = Returned (req resp) (conn resp) (Some e) l [] rest
  | inl via =>
      let b := branch_arg via in
      b = "" ∨ (String.length b < 8)%nat ∨ String.substring 0 7 b ≠ "z9hG4bK" →
      AcceptRequest l (Own (resp, now) :: rest)
        = Returned (req resp) (conn resp) (Some ErrInvalidBranch) l [] rest
  end.
Proof.
  intros Hopen He Hr.
  destruct (ParseVia (header_via r)) as [via|e] eqn:Hv.
  - intros b Hb. apply invalid_branch_true in Hb. subst b.
    unfold AcceptRequest. rewrite Hopen. simpl.
    unfold accept_iter. rewrite He, Hr, Hv, Hb. reflexivity.
  - unfold AcceptRequest. rewrite Hopen. simpl.
    unfold accept_iter. rewrite He, Hr, Hv. reflexivity.
Qed.

(** ** Shutdown *)

(** C6: once Close has run, and whatever the goroutines do afterwards
    ([ops]), a call of AcceptRequest returns ErrClosed at line 142: it
    takes nothing from the channel (the events are all still there, even
    when there is none and a receive would block) and performs no
    action. *)
Theorem C6_AcceptRequest_after_Close
    (l : Listener) (ops : list op) (evs : list (event arrival)) :
  let l' := steps (Close l).1.2 ops in
  AcceptRequest l' evs = Returned None None (Some ErrClosed) l' [] evs.
Proof.
  intros l'. unfold AcceptRequest.
  assert (Hc : closed l' = true) by apply steps_closed, Close_closed.
  rewrite Hc. reflexivity.
Qed.

(** C9: Close calls Close on the TCP socket and then on the UDP socket,
    whatever the first call reports, so both end up closed; it returns
    the TCP socket's error when there is one (also when both fail), and
    the UDP socket's result otherwise. *)
Theorem C9_Close_closes_both_sockets (l : Listener) :
  (Close l).2 = [ASetClosed; ACloseTCP; ACloseUDP; ADrain]
  ∧ tcpListener (Close l).1.2 = (sock_close (tcpListener l)).2
  ∧ udpListener (Close l).1.2 = (sock_close (udpListener l)).2
  ∧ sock_open (tcpListener (Close l).1.2) = false
  ∧ sock_open (udpListener (Close l).1.2) = false
  ∧ (Close l).1.1 = match (sock_close (tcpListener l)).1 with
                    | Some e => Some e
                    | None => (sock_close (udpListener l)).1
                    end.
Proof.
  rewrite Close_log, Close_state, Close_error. simpl.
  rewrite !sock_close_open. repeat split; reflexivity.
Qed.

(** C5, amended: Close has no guard against a second call.  A second
    Close leaves the listener exactly as the first left it (the flag
    stays set, the sockets stay closed and are not released again by the
    socket layer), but it calls Close on both sockets again and returns
    the error that the TCP socket reports for a Close of a closed socket,
    whatever the first call returned. *)
Theorem C5_second_Close_repeats_the_calls (l : Listener) :
  let first := Close l in
  let second := Close first.1.2 in
  second.1.2 = first.1.2
  ∧ second.2 = [ASetClosed; ACloseTCP; ACloseUDP; ADrain]
  ∧ second.1.1 = Some errNetClosing.
Proof.
  simpl. rewrite Close_log, Close_error, !Close_state. simpl.
  rewrite !sock_close_again. simpl. repeat split.
Qed.

(** ** The transport loops *)

Lemma tcp_loop_app (l : Listener) pre evs :
  Forall accept_ok pre →
  tcp_loop l (pre ++ evs) =
    ((tcp_loop (env_steps l pre) evs).1.1,
     (tcp_loop (env_steps l pre) evs).1.2,
     tcp_actions pre ++ (tcp_loop (env_steps l pre) evs).2).
Proof.
  intros Hpre. revert l.
  induction Hpre as [|[[c|e]|o] pre Hev _ IH]; intros l; simpl.
  - destruct (tcp_loop l evs) as [[? ?] ?]. reflexivity.
  - rewrite IH. reflexivity.
  - destruct Hev.
  - rewrite IH. reflexivity.
Qed.

Lemma udp_loop_app (l : Listener) pre evs :
  Forall read_ok pre →
  udp_loop l (pre ++ evs) =
    ((udp_loop (env_steps l pre) evs).1.1,
     (udp_loop (env_steps l pre) evs).1.2,
     udp_actions pre ++ (udp_loop (env_steps l pre) evs).2).
Proof.
  intros Hpre. revert l.
  induction Hpre as [|[[n a d|e]|o] pre Hev _ IH]; intros l; simpl.
  - destruct (udp_loop l evs) as [[? ?] ?]. reflexivity.
  - rewrite IH. reflexivity.
  - destruct Hev.
  - rewrite IH. reflexivity.
Qed.

Lemma sends_app (lg1 lg2 : list action) : sends (lg1 ++ lg2) = sends lg1 ++ sends lg2.
Proof. unfold sends. apply flat_map_app. Qed.

Lemma sends_tcp_actions evs : sends (tcp_actions evs) = [].
Proof.
  induction evs as [|[[c|e]|o] evs IH]; simpl; auto.
Qed.

Lemma sends_udp_actions evs : sends (udp_actions evs) = [].
Proof.
  induction evs as [|[[n a d|e]|o] evs IH]; simpl; auto.
Qed.

(** A loop that has returned has run Close. *)
Lemma with_deferred_Close_exit r (l' : Listener) log :
  with_deferred_Close r = Exited l' log →
  (∃ before, log = before ++ [ASetClosed; ACloseTCP; ACloseUDP; ADrain])
  ∧ closed l' = true
  ∧ sock_open (tcpListener l') = false
  ∧ sock_open (udpListener l') = false.
Proof.
  destruct r as [[[] l0] lg]; simpl; [|discriminate].
  intros [= <- <-]. rewrite Close_log, Close_state. simpl.
  rewrite !sock_close_open. eauto.
Qed.

(** C7: when handleTCPListening or handleUDPListening returns, the
    deferred Close has run: its four actions end the log of the loop, the
    closed flag is set and both sockets, the one of the other transport
    included, are closed. *)
Theorem C7_loop_exit_runs_Close
    (l : Listener) (tevs : list (event accept_result))
    (uevs : list (event read_result)) :
  (∀ l' log, handleTCPListening l tevs = Exited l' log →
     (∃ before, log = before ++ [ASetClosed; ACloseTCP; ACloseUDP; ADrain])
     ∧ closed l' = true
     ∧ sock_open (tcpListener l') = false
     ∧ sock_open (udpListener l') = false)
  ∧ (∀ l' log, handleUDPListening l uevs = Exited l' log →
     (∃ before, log = before ++ [ASetClosed; ACloseTCP; ACloseUDP; ADrain])
     ∧ closed l' = true
     ∧ sock_open (tcpListener l') = false
     ∧ sock_open (udpListener l') = false).
Proof.
  split; intros l' log; apply with_deferred_Close_exit.
Qed.

(** C8: at the first failure of Accept (of ReadFrom), after any number of
    successful rounds [pre], the loop returns, whatever would come next
    ([rest] plays no part: the call is not tried again).  If the closed
    flag is set at that moment the loop sends nothing; otherwise it sends
    one item, which carries the error and neither connection nor
    request.  Then the deferred Close runs. *)
Theorem C8_transport_failure_is_final
    (l : Listener) (e : error)
    (tpre trest : list (event accept_result))
    (upre urest : list (event read_result)) :
  Forall accept_ok tpre →
  Forall read_ok upre →
  let lt := env_steps l tpre in
  let lu := env_steps l upre in
  let pushed (l1 : Listener) :=
    if closed l1 then [] else [ASend (error_item e)] in
  (handleTCPListening l (tpre ++ Own (AcceptFailed e) :: trest)
     = Exited (Close lt).1.2
         (tcp_actions tpre ++ pushed lt ++ [ASetClosed; ACloseTCP; ACloseUDP; ADrain])
   ∧ sends (log_of (handleTCPListening l (tpre ++ Own (AcceptFailed e) :: trest)))
     = if closed lt then [] else [error_item e])
  ∧ (handleUDPListening l (upre ++ Own (ReadFailed e) :: urest)
     = Exited (Close lu).1.2
         (udp_actions upre ++ pushed lu ++ [ASetClosed; ACloseTCP; ACloseUDP; ADrain])
   ∧ sends (log_of (handleUDPListening l (upre ++ Own (ReadFailed e) :: urest)))
     = if closed lu then [] else [error_item e]).
Proof.
  intros Ht Hu. cbv zeta.
  unfold handleTCPListening, handleUDPListening.
  rewrite (tcp_loop_app _ _ _ Ht), (udp_loop_app _ _ _ Hu). simpl.
  generalize (env_steps l tpre) as lt, (env_steps l upre) as lu. intros lt lu.
  split.
  - destruct (closed lt); simpl;
      rewrite Close_log, ?sends_app, sends_tcp_actions, <- ?app_assoc;
      split; reflexivity.
  - destruct (closed lu); simpl;
      rewrite Close_log, ?sends_app, sends_udp_actions, <- ?app_assoc;
      split; reflexivity.
Qed.

(** ** Listen *)

(** C4: the listener that a successful Listen returns has a nil udpPool
    and a nil udpPoolMutex; Listen sets the two sockets, the flag (false),
    the channel, the empty cache and the cache's mutex, and starts the
    three goroutines.  Yet handleUDPListening, on that listener, calls
    getUDPConnFromPool for every datagram it reads. *)
Theorem C4_Listen_leaves_the_pool_nil
    (net : NetStack) (addr : string) (l : Listener) (log : list action) :
  Listen net addr = (inl l, log) →
  (udpPool l = None ∧ udpPoolMutex l = None)
  ∧ (net_Listen net addr = inl (tcpListener l)
     ∧ (∃ udpAddr, net_ResolveUDPAddr net addr = inl udpAddr
                   ∧ net_ListenUDP net udpAddr = inl (udpListener l))
     ∧ closed l = false
     ∧ requestChannel l = make_chan 0
     ∧ receivedBranches l = ∅
     ∧ branchMutex l = new_Mutex)
  ∧ log = [AGo go_branchJanitor; AGo go_handleTCPListening;
           AGo go_handleUDPListening]
  ∧ (∀ pre n a data rest, Forall read_ok pre →
       AGetUDPConnFromPool a
         ∈ log_of (handleUDPListening l (pre ++ Own (ReadOk n a data) :: rest))).
Proof.
  unfold Listen. intros HL.
  destruct (net_Listen net addr) as [tcp|] eqn:E1; [|discriminate].
  destruct (net_ResolveUDPAddr net addr) as [ua|] eqn:E2; [|discriminate].
  destruct (net_ListenUDP net ua) as [udp|] eqn:E3; [|discriminate].
  injection HL as <- <-. simpl.
  split; [split; reflexivity|]. split.
  { split; [reflexivity|]. split; [exists ua; split; [reflexivity|exact E3]|].
    repeat split. }
  split; [reflexivity|].
  intros pre n a data rest Hpre.
  unfold handleUDPListening. rewrite (udp_loop_app _ _ _ Hpre). simpl.
  destruct (udp_loop _ rest) as [[[] l'] lg]; simpl;
    rewrite !elem_of_app; [left|]; right; left.
Qed.

End Properties.

(** * The properties on the small instance *)

Ltac demo_carries :=
  split; [reflexivity | eexists _, _; repeat split; reflexivity].

Ltac demo_clock := unfold Second; lia.

(** The request of the design document's scenario arrives 5 seconds after
    Listen and again at 25 seconds; the janitor has woken at 10 and 20
    seconds.  The second arrival is dropped. *)
Lemma C1_witness :
  let b := "z9hG4bK-abc123"%string in
  let p := demo_request "198.51.100.7:5060" b in
  let mid := [demo_wake (10 * Second); demo_wake (20 * Second)] in
  let l1 := @set_receivedBranches demo
              (<[b := 5 * Second]> (@receivedBranches demo demo_listener))
              demo_listener in
  @accept_iter demo (@after demo l1 mid) p (25 * Second)
    = (@Continue demo, @after demo l1 mid, [@ALock demo; @ALookup demo b; @AUnlock demo]).
Proof.
  intros b p mid l1.
  refine (proj1 (proj2
    (@C1_retransmission_within_window_dropped demo demo_listener b p p
       (5 * Second) (25 * Second) mid [] _ _ _ _ _ _))).
  - reflexivity.
  - reflexivity.
  - demo_carries.
  - demo_carries.
  - demo_clock.
  - repeat constructor; simpl; demo_clock.
Defined.

(** Same request, second arrival at 36 seconds: 31 seconds after the first,
    but the janitor, which woke at 10, 20 and 30 seconds, has not yet seen
    the entry older than 30 seconds.  The second call does not return the
    request. *)
Lemma C2_counterexample :
  ¬ @returned_twice_after_window demo demo_listener "z9hG4bK-abc123"
      (demo_request "198.51.100.7:5060" "z9hG4bK-abc123")
      (demo_request "198.51.100.7:5060" "z9hG4bK-abc123")
      (5 * Second) (36 * Second)
      [demo_wake (10 * Second); demo_wake (20 * Second); demo_wake (30 * Second)].
Proof.
  intros Hstated.
  destruct Hstated as (l1 & lg1 & l2 & lg2 & E1 & E2);
    [demo_carries | demo_carries | demo_clock | ].
  vm_compute in E1. injection E1 as <- <-.
  vm_compute in E2. discriminate E2.
Qed.

(** The entry recorded at 5 seconds is still there at 36 seconds; once the
    janitor has woken at 40 seconds, the request that arrives at 41 seconds
    is returned. *)
Lemma C2_witness :
  let b := "z9hG4bK-abc123"%string in
  let p := demo_request "198.51.100.7:5060" b in
  let l1 := @set_receivedBranches demo
              (<[b := 5 * Second]> (@receivedBranches demo demo_listener))
              demo_listener in
  let nows := λ _ : string, 40 * Second in
  @AcceptRequest demo l1 [@Own demo _ (p, 36 * Second)]
    = @prepend demo [@ALock demo; @ALookup demo b; @AUnlock demo]
        (@AcceptRequest demo l1 [])
  ∧ (nows b - 5 * Second > 30 * Second →
     @AcceptRequest demo l1
       [@Env demo _ (@OpSweep demo nows); @Own demo _ (p, 41 * Second)]
       = @Returned demo (@req demo p) (@conn demo p) None
           (@set_receivedBranches demo
              (<[b := 41 * Second]> (@receivedBranches demo (@sweep demo nows l1)))
              (@sweep demo nows l1))
           [@ALock demo; @ALookup demo b; @AStore demo b (41 * Second); @AUnlock demo]
           []).
Proof.
  intros b p l1 nows.
  pose proof (@C2_entry_expires_only_at_a_sweep demo l1 b p
                (5 * Second) (36 * Second) nows []) as W36.
  pose proof (@C2_entry_expires_only_at_a_sweep demo l1 b p
                (5 * Second) (41 * Second) nows []) as W41.
  split.
  - apply W36; [reflexivity | reflexivity | demo_carries].
  - apply W41; [reflexivity | reflexivity | demo_carries].
Defined.

(** A request without a Via header: the stand-in codec reports its own
    error, and that error, not ErrInvalidBranch, is what the caller gets. *)
Lemma C3_counterexample :
  ¬ @rejected_with_ErrInvalidBranch demo demo_listener
      (demo_no_via "198.51.100.7:5060") (5 * Second).
Proof.
  intros Hstated.
  specialize (Hstated [("To", "sip:bob@example.com")]%string
                eq_refl eq_refl eq_refl I []).
  vm_compute in Hstated. discriminate Hstated.
Qed.

(** The scenario of the design document: a request with branch "short". *)
Lemma C3_witness :
  @AcceptRequest demo demo_listener
    [@Own demo _ (demo_request "198.51.100.7:5060" "short", 5 * Second)]
  = @Returned demo
      (@req demo (demo_request "198.51.100.7:5060" "short"))
      (Some "198.51.100.7:5060"%string) (Some ErrInvalidBranch) demo_listener [] [].
Proof.
  refine (@C3_unusable_branch_returned_uncached demo demo_listener
            (demo_request "198.51.100.7:5060" "short")
            [("Via", "SIP/2.0/UDP pc33.example.com;branch=short")]%string
            (5 * Second) [] _ _ _ _).
  - reflexivity.
  - reflexivity.
  - reflexivity.
  - right; left. simpl. lia.
Defined.

(** Listen, Close, Close: the first Close returns nil, the second the
    socket layer's error. *)
Lemma C5_counterexample : ¬ @second_Close_is_silent demo demo_listener.
Proof.
  intros Hstated. destruct (Hstated eq_refl) as [E _].
  vm_compute in E. discriminate E.
Qed.

(** Listen on the small network stack. *)
Lemma C4_witness :
  @udpPool demo demo_listener = None ∧ @udpPoolMutex demo demo_listener = None.
Proof.
  refine (proj1 (@C4_Listen_leaves_the_pool_nil demo demo_net "127.0.0.1:5060"
                   demo_listener _ _)).
  reflexivity.
Defined.

(** Accept fails on a fresh listener: the loop sends the error and closes. *)
Lemma C7_witness :
  @closed demo (@set_udpListener demo (mkSocket false None)
                  (@set_tcpListener demo (mkSocket false None)
                     (@set_closed demo true demo_listener))) = true.
Proof.
  refine (proj1 (proj2 (proj1
    (@C7_loop_exit_runs_Close demo demo_listener
       [@Own demo _ (@AcceptFailed demo (ErrExternal "accept: too many open files"))]
       [])
    _ _ _))).
  reflexivity.
Defined.

(** Two connections are accepted, then Accept fails; one datagram is read,
    Close runs in another goroutine, then ReadFrom fails. *)
Lemma C8_witness :
  let e := ErrExternal "accept: too many open files" in
  let tpre := [@Own demo _ (@Accepted demo "198.51.100.7:40000"%string);
               @Own demo _ (@Accepted demo "198.51.100.8:40000"%string)] in
  let upre := [@Own demo _ (@ReadOk demo 2%nat "198.51.100.7:5060"%string
                              [Byte.x4f; Byte.x4b; Byte.x00]);
               @Env demo _ (@OpClose demo)] in
  @sends demo (@log_of demo (@handleTCPListening demo demo_listener
     (tpre ++ [@Own demo _ (@AcceptFailed demo e);
               @Own demo _ (@Accepted demo "198.51.100.9:40000"%string)])))
    = [@error_item demo e]
  ∧ @sends demo (@log_of demo (@handleUDPListening demo demo_listener
     (upre ++ [@Own demo _ (@ReadFailed demo e)])))
    = [].
Proof.
  intros e tpre upre.
  pose proof (@C8_transport_failure_is_final demo demo_listener e
                tpre [@Own demo _ (@Accepted demo "198.51.100.9:40000"%string)]
                upre []) as W.
  destruct W as [[_ Wt] [_ Wu]].
  - repeat constructor.
  - repeat constructor.
  - split; [exact Wt | exact Wu].
Defined.

(** The entry of the scenario's branch after three retransmissions. *)
Lemma C10_witness :
  let b := "z9hG4bK-abc123"%string in
  let p := demo_request "198.51.100.7:5060" b in
  let l1 := @set_receivedBranches demo
              (<[b := 5 * Second]> (@receivedBranches demo demo_listener))
              demo_listener in
  let dups := [@Own demo _ (p, 6 * Second); @Own demo _ (p, 7 * Second);
               @Own demo _ (p, 9 * Second)] in
  @after demo l1 dups = l1
  ∧ @receivedBranches demo (@after demo l1 dups) !! b = Some (5 * Second).
Proof.
  intros b p l1 dups.
  refine (proj2 (@C10_suppression_leaves_cache demo l1 b (5 * Second) dups _ _)).
  - reflexivity.
  - subst dups. repeat (constructor; [demo_carries|]). constructor.
Defined.

(** The scenario of the design document, on the clock of the C2 examples:
    the request arrives at 1 second and is returned; it arrives again at 2
    seconds and is dropped; the janitor wakes at 10, 20, 30 and 40 seconds
    and deletes the entry at 40; the request arrives at 41 seconds and is
    returned by the second call. *)
Example scenario_resend_after_window :
  let p := demo_request "198.51.100.7:5060" "z9hG4bK-abc123" in
  let later := [@Own demo _ (p, 2 * Second);
                demo_wake (10 * Second); demo_wake (20 * Second);
                demo_wake (30 * Second); demo_wake (40 * Second);
                @Own demo _ (p, 41 * Second)] in
  ∃ l1 lg1 l2 lg2,
    @AcceptRequest demo demo_listener (@Own demo _ (p, 1 * Second) :: later)
      = @Returned demo (@req demo p) (@conn demo p) None l1 lg1 later
    ∧ @AcceptRequest demo l1 later
      = @Returned demo (@req demo p) (@conn demo p) None l2 lg2 []
    ∧ @receivedBranches demo l2 !! "z9hG4bK-abc123"%string = Some (41 * Second).
Proof.
  intros p later. do 4 eexists.
  split; [vm_compute; reflexivity|].
  split; vm_compute; reflexivity.
Qed.

(** Close while the caller waits in AcceptRequest: a retransmission that
    arrives afterwards sends the loop back to line 141, and the call
    returns ErrClosed. *)
Example scenario_close_while_waiting :
  let p := demo_request "198.51.100.7:5060" "z9hG4bK-abc123" in
  let l1 := @set_receivedBranches demo
              (<[("z9hG4bK-abc123"%string) := 5 * Second]>
                 (@receivedBranches demo demo_listener))
              demo_listener in
  ∃ l2 lg,
    @AcceptRequest demo l1 [@Env demo _ (@OpClose demo); @Own demo _ (p, 6 * Second)]
      = @Returned demo None None (Some ErrClosed) l2 lg []
    ∧ @closed demo l2 = true.
Proof.
  intros p l1. do 2 eexists. split; vm_compute; reflexivity.
Qed.

(** * Further properties of listen.go *)

Section FurtherProperties.

Context `{Collaborators}.

(** ** Line 153 *)

Lemma substring_0_append (p r : string) :
  String.substring 0 (String.length p) (p ++ r) = p.
Proof.
  induction p as [|a p IH]; simpl.
  - destruct r; reflexivity.
  - rewrite IH. reflexivity.
Qed.

Lemma substring_0_split (n : nat) (s : string) :
  (n ≤ String.length s)%nat →
  ∃ r, s = (String.substring 0 n s ++ r)%string
       ∧ String.length s = (n + String.length r)%nat.
Proof.
  revert s. induction n as [|n IH]; intros s Hn.
  - exists s. destruct s; simpl; split; reflexivity.
  - destruct s as [|a s]; simpl in *; [lia|].
    destruct (IH s) as (r & Hs & Hl); [lia|].
    exists r. split; [|lia].
    change (String a s = String a (String.substring 0 n s ++ r)%string).
    f_equal. exact Hs.
Qed.

(** X2: a branch passes the test of line 153 exactly when it is the magic
    cookie followed by at least one more byte; the cookie alone is
    refused. *)
Theorem valid_branch_is_cookie_and_more (b : string) :
  invalid_branch b = false ↔ ∃ r, b = ("z9hG4bK" ++ r)%string ∧ r ≠ ""%string.
Proof.
  unfold invalid_branch. rewrite !orb_false_iff, negb_false_iff.
  rewrite String.eqb_neq, Nat.ltb_ge, String.eqb_eq. split.
  - intros [[_ Hlen] Hpre].
    destruct (substring_0_split 7 b) as (r & Hb & Hl); [lia|].
    rewrite Hpre in Hb. exists r. split; [exact Hb|].
    intros ->. simpl in Hl. lia.
  - intros (r & -> & Hr). split; [split|].
    + discriminate.
    + destruct r; [congruence|]. simpl. lia.
    + exact (substring_0_append "z9hG4bK" r).
Qed.

(** ** What one turn of AcceptRequest's loop can do *)

Lemma accept_iter_spec (l : Listener) resp now :
  (∃ c lg, accept_iter l resp now = (c, l, lg)
           ∧ ∀ rq cn, c ≠ Return rq cn None)
  ∨ (∃ r b, req resp = Some r ∧ branch_of r = Some b
            ∧ invalid_branch b = false
            ∧ receivedBranches l !! b = None
            ∧ accept_iter l resp now =
                (Return (Some r) (conn resp) None,
                 set_receivedBranches (<[b := now]> (receivedBranches l)) l,
                 [ALock; ALookup b; AStore b now; AUnlock])).
Proof.
  unfold accept_iter, branch_of.
  destruct (err resp) as [e|] eqn:He.
  { left. eexists _, _. split; [reflexivity|]. intros rq cn [=]. }
  destruct (req resp) as [r|] eqn:Hr.
  2:{ left. eexists _, _. split; [reflexivity|]. intros rq cn [=]. }
  destruct (ParseVia (header_via r)) as [via|e] eqn:Hv.
  2:{ left. eexists _, _. split; [reflexivity|]. intros rq cn [=]. }
  destruct (invalid_branch (branch_arg via)) eqn:Hb.
  { left. eexists _, _. split; [reflexivity|]. intros rq cn [=]. }
  destruct (receivedBranches l !! branch_arg via) as [t|] eqn:Hl.
  { left. eexists _, _. split; [reflexivity|]. intros rq cn [=]. }
  right. exists r, (branch_arg via). rewrite Hv. repeat split; assumption.
Qed.

(** A turn of the loop changes nothing but the cache, which it extends. *)
Lemma accept_iter_frame (l : Listener) resp now :
  ∃ m, (accept_iter l resp now).1.2 = set_receivedBranches m l
       ∧ receivedBranches l ⊆ m
       ∧ (cache_valid l → ∀ b t, m !! b = Some t → invalid_branch b = false).
Proof.
  destruct (accept_iter_spec l resp now)
    as [(c & lg & E & _)|(r & b & _ & _ & Hb & Hl & E)]; rewrite E; simpl.
  - exists (receivedBranches l). split; [destruct l; reflexivity|].
    split; [reflexivity|]. intros Hv. exact Hv.
  - eexists. split; [reflexivity|]. split; [apply insert_subseteq, Hl|].
    intros Hv b' t'. rewrite lookup_insert.
    destruct (decide (b = b')) as [<-|]; [intros _; exact Hb|apply Hv].
Qed.

Lemma set_receivedBranches_twice (m m' : gmap string Z) (l : Listener) :
  set_receivedBranches m (set_receivedBranches m' l) = set_receivedBranches m l.
Proof. reflexivity. Qed.

Lemma after_own (l : Listener) resp now evs :
  after l (Own (resp, now) :: evs) = after (accept_iter l resp now).1.2 evs.
Proof. reflexivity. Qed.

Lemma after_env (l : Listener) o (evs : list (event arrival)) :
  after l (Env o :: evs) = after (apply_op o l) evs.
Proof. reflexivity. Qed.

(** X5: going through arrivals, AcceptRequest changes nothing of the
    listener but the cache (sockets, flag, channel, mutex and pool stay),
    and in the cache it only adds entries: none is removed, none gets a
    new time. *)
Theorem AcceptRequest_only_extends_the_cache
    (l : Listener) (evs : list (event arrival)) :
  Forall is_own evs →
  ∃ m, after l evs = set_receivedBranches m l ∧ receivedBranches l ⊆ m.
Proof.
  intros Hevs. revert l.
  induction Hevs as [|[[resp now]|o] evs Hev _ IH]; intros l.
  - exists (receivedBranches l). split; [destruct l; reflexivity|reflexivity].
  - rewrite after_own.
    destruct (accept_iter_frame l resp now) as (m1 & E1 & S1 & _).
    rewrite E1. destruct (IH (set_receivedBranches m1 l)) as (m & E & S).
    exists m. rewrite E. split; [reflexivity|].
    etrans; [exact S1|exact S].
  - destruct Hev.
Qed.

(** ** The cache holds validated branches only *)

Lemma apply_op_valid o (l : Listener) :
  cache_valid l → cache_valid (apply_op o l).
Proof.
  intros Hv. destruct o as [|nows|resp now]; simpl.
  - intros b t. rewrite Close_receivedBranches. apply Hv.
  - destruct (closed l); [exact Hv|].
    intros b t Hb. apply sweep_lookup in Hb as [Hb _]. exact (Hv b t Hb).
  - destruct (accept_iter_frame l resp now) as (m & E & _ & Hm).
    rewrite E. exact (Hm Hv).
Qed.

Lemma after_valid (l : Listener) evs : cache_valid l → cache_valid (after l evs).
Proof.
  revert l. induction evs as [|[[resp now]|o] evs IH]; intros l Hv.
  - exact Hv.
  - rewrite after_own. apply IH. exact (apply_op_valid (OpDeliver resp now) l Hv).
  - rewrite after_env. apply IH, apply_op_valid, Hv.
Qed.

(** X1: whatever arrives and whatever the janitor and Close do, the cache
    of a listener made by Listen holds only branches that passed the test
    of line 153; a rejected branch is never recorded. *)
Theorem cache_holds_only_valid_branches
    (net : NetStack) (addr : string) (l : Listener) (log : list action)
    (evs : list (event arrival)) :
  Listen net addr = (inl l, log) →
  cache_valid (after l evs).
Proof.
  intros HL. apply after_valid. unfold Listen in HL.
  destruct (net_Listen net addr); [|discriminate].
  destruct (net_ResolveUDPAddr net addr) as [ua|]; [|discriminate].
  destruct (net_ListenUDP net ua); [|discriminate].
  injection HL as <- _. intros b t. simpl. rewrite lookup_empty. discriminate.
Qed.

(** ** What a return with a nil error means *)

Lemma prepend_Returned lg o rq c e (l' : Listener) log rest :
  prepend lg o = Returned rq c e l' log rest →
  ∃ log0, o = Returned rq c e l' log0 rest ∧ log = lg ++ log0.
Proof.
  destruct o; simpl; intros [=]; subst. eexists. split; reflexivity.
Qed.

Lemma receive_nil_error (l : Listener) evs rq c l' log rest :
  receive l evs = Returned rq c None l' log rest →
  ∃ resp now r b,
    Own (resp, now) ∈ evs ∧ err resp = None
    ∧ rq = req resp ∧ c = conn resp
    ∧ req resp = Some r ∧ branch_of r = Some b ∧ invalid_branch b = false
    ∧ receivedBranches l' !! b = Some now.
Proof.
  revert l log. induction evs as [|[[resp now]|o] evs IH]; intros l log; simpl.
  - discriminate.
  - destruct (accept_iter_spec l resp now)
      as [(c0 & lg & E & Hnot)|(r & b & Hr & Hb & Hok & Hl & E)]; rewrite E.
    + destruct c0 as [|rq0 cn0 e0|].
      * destruct (closed l); simpl; [discriminate|].
        intros Hp. apply prepend_Returned in Hp as (log0 & Hp & _).
        destruct (IH _ _ Hp) as (resp' & now' & r & b & Hin & Hrest).
        exists resp', now', r, b. split; [right; exact Hin|exact Hrest].
      * intros [= -> -> -> -> -> ->]. destruct (Hnot rq c). reflexivity.
      * discriminate.
    + intros [= <- <- <- <- <-].
      exists resp, now, r, b. split; [left|].
      assert (He : err resp = None).
      { unfold accept_iter in E. destruct (err resp); [discriminate E|reflexivity]. }
      repeat split; try assumption; try congruence.
      simpl. apply lookup_insert_eq.
  - intros Hp. destruct (IH _ _ Hp) as (resp' & now' & r & b & Hin & Hrest).
    exists resp', now', r, b. split; [right; exact Hin|exact Hrest].
Qed.

(** X3: when AcceptRequest returns with a nil error, what it returns are
    the request and the connection of an item that arrived without error;
    that request has a branch that passed the test of line 153, and the
    cache of the listener holds this branch with the clock reading of that
    arrival. *)
Theorem AcceptRequest_nil_error_is_a_recorded_request
    (l : Listener) (evs : list (event arrival))
    (rq : option Request) (c : option Conn) (l' : Listener)
    (log : list action) (rest : list (event arrival)) :
  AcceptRequest l evs = Returned rq c None l' log rest →
  ∃ resp now r b,
    Own (resp, now) ∈ evs ∧ err resp = None
    ∧ rq = req resp ∧ c = conn resp
    ∧ req resp = Some r ∧ branch_of r = Some b ∧ invalid_branch b = false
    ∧ receivedBranches l' !! b = Some now.
Proof.
  unfold AcceptRequest. destruct (closed l); [discriminate|].
  apply receive_nil_error.
Qed.

(** ** No branch is delivered twice while the janitor rests *)

Lemma apply_op_grows o (l : Listener) :
  (∀ nows, o ≠ OpSweep nows) →
  receivedBranches l ⊆ receivedBranches (apply_op o l).
Proof.
  intros Ho. destruct o as [|nows|resp now]; simpl.
  - rewrite Close_receivedBranches. reflexivity.
  - destruct (Ho nows). reflexivity.
  - destruct (accept_iter_frame l resp now) as (m & E & S & _).
    rewrite E. exact S.
Qed.

Lemma receive_no_sweep (l : Listener) evs rq c e l' log rest :
  Forall no_sweep evs →
  receive l evs = Returned rq c e l' log rest →
  receivedBranches l ⊆ receivedBranches l'
  ∧ Forall no_sweep rest
  ∧ (e = None → ∃ r b now,
       rq = Some r ∧ branch_of r = Some b
       ∧ receivedBranches l !! b = None
       ∧ receivedBranches l' !! b = Some now).
Proof.
  intros Hevs. revert l log.
  induction Hevs as [|[[resp now]|o] evs Hev Hevs IH]; intros l log; simpl.
  - discriminate.
  - destruct (accept_iter_spec l resp now)
      as [(c0 & lg & E & Hnot)|(r & b & Hr & Hb & Hok & Hl & E)]; rewrite E.
    + destruct c0 as [|rq0 cn0 e0|].
      * destruct (closed l); simpl.
        -- intros [= <- <- <- <- <- <-].
           split; [reflexivity|]. split; [exact Hevs|]. discriminate.
        -- intros Hp. apply prepend_Returned in Hp as (log0 & Hp & _).
           exact (IH _ _ Hp).
      * intros [= -> -> -> -> -> ->].
        split; [reflexivity|]. split; [exact Hevs|].
        intros ->. destruct (Hnot rq c). reflexivity.
      * discriminate.
    + intros [= <- <- <- <- <- <-]. simpl.
      split; [apply insert_subseteq, Hl|]. split; [exact Hevs|].
      intros _. exists r, b, now.
      repeat split; try assumption. apply lookup_insert_eq.
  - intros Hp. destruct (IH _ _ Hp) as (S & Hrest & Hnil).
    assert (S0 : receivedBranches l ⊆ receivedBranches (apply_op o l)).
    { apply apply_op_grows. intros nows ->. exact Hev. }
    split; [etrans; [exact S0|exact S]|]. split; [exact Hrest|].
    intros He. destruct (Hnil He) as (r & b & now & Hrq & Hb & Hl & Hl').
    exists r, b, now. repeat split; try assumption.
    exact (lookup_weaken_None _ _ _ Hl S0).
Qed.

Lemma AcceptRequest_no_sweep (l : Listener) evs rq c e l' log rest :
  Forall no_sweep evs →
  AcceptRequest l evs = Returned rq c e l' log rest →
  receivedBranches l ⊆ receivedBranches l'
  ∧ Forall no_sweep rest
  ∧ (e = None → ∃ r b now,
       rq = Some r ∧ branch_of r = Some b
       ∧ receivedBranches l !! b = None
       ∧ receivedBranches l' !! b = Some now).
Proof.
  intros Hevs. unfold AcceptRequest. destruct (closed l).
  - intros [= <- <- <- <- <- <-].
    split; [reflexivity|]. split; [exact Hevs|]. discriminate.
  - apply receive_no_sweep, Hevs.
Qed.

Lemma delivered_branches_cons rq c e rs b :
  b ∈ delivered_branches ((rq, c, e) :: rs) →
  (e = None ∧ ∃ r, rq = Some r ∧ branch_of r = Some b)
  ∨ b ∈ delivered_branches rs.
Proof.
  unfold delivered_branches. simpl.
  destruct rq as [r|]; [|right; assumption].
  destruct e; [right; assumption|].
  destruct (branch_of r) as [b0|] eqn:Hb; simpl; [|right; assumption].
  intros [->|Hin]%elem_of_cons; [left|right; exact Hin].
  split; [reflexivity|]. exists r. split; [reflexivity|exact Hb].
Qed.

Lemma calls_fresh (n : nat) (l : Listener) evs b :
  Forall no_sweep evs →
  b ∈ delivered_branches (calls n l evs) →
  receivedBranches l !! b = None.
Proof.
  revert l evs. induction n as [|n IH]; intros l evs Hevs; simpl.
  - intros Hb. apply elem_of_nil in Hb. destruct Hb.
  - destruct (AcceptRequest l evs) as [rq c e l' log rest| |] eqn:E;
      [|intros Hb; apply elem_of_nil in Hb; destruct Hb..].
    destruct (AcceptRequest_no_sweep _ _ _ _ _ _ _ _ Hevs E) as (S & Hrest & Hnil).
    intros [[-> (r & -> & Hb)]|Hin]%delivered_branches_cons.
    + destruct (Hnil eq_refl) as (r' & b' & now & [= <-] & Hb' & Hl & _).
      congruence.
    + exact (lookup_weaken_None _ _ _ (IH _ _ Hrest Hin) S).
Qed.

(** X4: as long as the janitor does not run, a caller that calls
    AcceptRequest again and again is never handed two requests of the same
    branch with a nil error: the branches of what the calls deliver are
    pairwise different, however often each one arrives. *)
Theorem no_branch_is_delivered_twice
    (n : nat) (l : Listener) (evs : list (event arrival)) :
  Forall no_sweep evs →
  NoDup (delivered_branches (calls n l evs)).
Proof.
  revert l evs. induction n as [|n IH]; intros l evs Hevs; simpl.
  - constructor.
  - destruct (AcceptRequest l evs) as [rq c e l' log rest| |] eqn:E;
      [|constructor..].
    destruct (AcceptRequest_no_sweep _ _ _ _ _ _ _ _ Hevs E) as (S & Hrest & Hnil).
    specialize (IH l' rest Hrest).
    unfold delivered_branches in *. simpl.
    destruct rq as [r|]; [|exact IH].
    destruct e; [exact IH|].
    destruct (branch_of r) as [b|] eqn:Hb; simpl; [|exact IH].
    constructor; [|exact IH].
    intros Hin. apply (calls_fresh n l' rest b Hrest) in Hin.
    destruct (Hnil eq_refl) as (r' & b' & now & [= <-] & Hb' & _ & Hl').
    congruence.
Qed.

(** ** The mutex *)

Lemma guarded_app (h : bool) (lg1 lg2 : list action) :
  guarded h (lg1 ++ lg2) =
    match guarded h lg1 with
    | Some h' => guarded h' lg2
    | None => None
    end.
Proof.
  revert h. induction lg1 as [|a lg1 IH]; intros h; simpl; [reflexivity|].
  destruct a, h; simpl; auto.
Qed.

Lemma accept_iter_guarded (l : Listener) resp now :
  guarded false (accept_iter l resp now).2 = Some false.
Proof.
  destruct (accept_iter_spec l resp now)
    as [(c & lg & E & _)|(r & b & _ & _ & _ & _ & E)]; [|rewrite E; reflexivity].
  revert E. unfold accept_iter.
  repeat (match goal with
          | |- context [match ?x with _ => _ end] => destruct x
          end); intros [= <- <-]; reflexivity.
Qed.

Lemma prepend_log lg o : outcome_log (prepend lg o) = lg ++ outcome_log o.
Proof. destruct o; reflexivity. Qed.

Lemma receive_guarded (l : Listener) evs :
  guarded false (outcome_log (receive l evs)) = Some false.
Proof.
  revert l. induction evs as [|[[resp now]|o] evs IH]; intros l; simpl.
  - reflexivity.
  - pose proof (accept_iter_guarded l resp now) as G.
    destruct (accept_iter l resp now) as [[c l'] lg]. simpl in G.
    destruct c; simpl; try exact G.
    rewrite prepend_log, guarded_app, G.
    destruct (closed l'); [reflexivity|apply IH].
  - apply IH.
Qed.

(** X6: in everything AcceptRequest does, whether it returns, panics or
    stays in the receive, the cache is read and written only between a
    Lock and the next Unlock of branchMutex, the mutex is never locked
    twice in a row, and it is free again at the end. *)
Theorem AcceptRequest_keeps_the_lock_discipline
    (l : Listener) (evs : list (event arrival)) :
  guarded false (outcome_log (AcceptRequest l evs)) = Some false.
Proof.
  unfold AcceptRequest. destruct (closed l); [reflexivity|].
  apply receive_guarded.
Qed.

(** ** The nil dereference *)

Lemma prepend_Panicked lg o (l' : Listener) log :
  prepend lg o = Panicked l' log → ∃ log0, o = Panicked l' log0.
Proof. destruct o; simpl; intros [=]; subst. eexists. reflexivity. Qed.

Lemma receive_panics (l : Listener) evs l' log :
  receive l evs = Panicked l' log →
  ∃ resp now, Own (resp, now) ∈ evs ∧ err resp = None ∧ req resp = None.
Proof.
  revert l log. induction evs as [|[[resp now]|o] evs IH]; intros l log; simpl.
  - discriminate.
  - destruct (accept_iter l resp now) as [[c l0] lg] eqn:E.
    destruct c as [|rq cn e|].
    + destruct (closed l0); simpl; [discriminate|].
      intros Hp. apply prepend_Panicked in Hp as (log0 & Hp).
      destruct (IH _ _ Hp) as (resp' & now' & Hin & Hrest).
      exists resp', now'. split; [right; exact Hin|exact Hrest].
    + discriminate.
    + intros _. exists resp, now. split; [left|].
      revert E. unfold accept_iter.
      destruct (err resp); [discriminate|].
      destruct (req resp) as [r|]; [|split; reflexivity].
      destruct (ParseVia (header_via r)); [|discriminate].
      destruct (invalid_branch _); [discriminate|].
      destruct (receivedBranches l !! _); discriminate.
  - intros Hp. destruct (IH _ _ Hp) as (resp' & now' & Hin & Hrest).
    exists resp', now'. split; [right; exact Hin|exact Hrest].
Qed.

(** X7: AcceptRequest dereferences the request of every item that has no
    error; it panics exactly on an item that has neither error nor
    request.  If it panics, such an item arrived; and on an open listener
    such an item, arriving first, makes it panic. *)
Theorem AcceptRequest_panics_only_on_an_empty_item
    (l : Listener) (evs : list (event arrival)) :
  (∀ l' log, AcceptRequest l evs = Panicked l' log →
     ∃ resp now, Own (resp, now) ∈ evs ∧ err resp = None ∧ req resp = None)
  ∧ (∀ c now, closed l = false →
       AcceptRequest l (Own (mkPackage c None None, now) :: evs) = Panicked l []).
Proof.
  split.
  - intros l' log. unfold AcceptRequest. destruct (closed l); [discriminate|].
    apply receive_panics.
  - intros c now Hopen. unfold AcceptRequest. rewrite Hopen. reflexivity.
Qed.

(** ** branchJanitor *)

(** X8: on an open listener that nothing else touches, after any number
    of wake-ups the janitor is asleep again, it has changed nothing but
    the cache, and the cache holds exactly the entries that it held at the
    start and that were at most 30 seconds old at every wake-up, each with
    the time it had. *)
Theorem branchJanitor_keeps_the_young_entries
    (l : Listener) (wakes : list (string → Z)) :
  closed l = false →
  ∃ m, branchJanitor l (map Own wakes) = JanitorSleeping (set_receivedBranches m l)
       ∧ ∀ b t, m !! b = Some t ↔
                receivedBranches l !! b = Some t
                ∧ Forall (λ nows : string → Z, nows b - t ≤ 30 * Second) wakes.
Proof.
  revert l. induction wakes as [|nows wakes IH]; intros l Hopen; simpl.
  - exists (receivedBranches l). split; [destruct l; reflexivity|].
    intros b t. split; [intros Hb; split; [exact Hb|constructor]|intros [Hb _]; exact Hb].
  - rewrite Hopen. destruct (IH (sweep nows l) Hopen) as (m & E & Hm).
    exists m. split; [exact E|].
    intros b t. rewrite Hm, sweep_lookup. split.
    + intros [[Hb Hy] Hf]. split; [exact Hb|]. constructor; assumption.
    + intros [Hb Hf]. inversion Hf; subst. repeat split; assumption.
Qed.

Lemma apply_op_stays_open o (l : Listener) :
  o ≠ OpClose → closed (apply_op o l) = closed l.
Proof.
  intros Ho. destruct o as [|nows|resp now]; simpl.
  - destruct Ho. reflexivity.
  - destruct (closed l) eqn:Hc; [exact Hc|exact Hc].
  - apply accept_iter_closed.
Qed.

Lemma env_steps_closed {X : Type} (l : Listener) (evs : list (event X)) :
  closed l = true → closed (env_steps l evs) = true.
Proof.
  revert l. induction evs as [|[x|o] evs IH]; intros l Hc; simpl.
  - exact Hc.
  - apply IH, Hc.
  - apply IH, apply_op_closed, Hc.
Qed.

Lemma branchJanitor_returned (l : Listener) evs l' :
  branchJanitor l evs = JanitorReturned l' → closed l' = true.
Proof.
  revert l. induction evs as [|[nows|o] evs IH]; intros l; simpl.
  - discriminate.
  - destruct (closed l) eqn:Hc; [|apply IH]. intros [= <-]. exact Hc.
  - apply IH.
Qed.

(** X9: the janitor returns exactly at a wake-up that finds the listener
    closed.  It returns only with the closed flag set; once the flag is
    set, its next wake-up returns without a sweep, the listener being as
    the other goroutines left it; and as long as nobody calls Close it
    never returns. *)
Theorem branchJanitor_returns_when_it_finds_closed
    (l : Listener) (evs pre rest : list (event (string → Z)))
    (nows : string → Z) :
  (∀ l', branchJanitor l evs = JanitorReturned l' → closed l' = true)
  ∧ (closed l = true → Forall is_env pre →
     branchJanitor l (pre ++ Own nows :: rest) = JanitorReturned (env_steps l pre))
  ∧ (closed l = false → Forall (λ ev, ev ≠ Env OpClose) evs →
     ∃ l', branchJanitor l evs = JanitorSleeping l' ∧ closed l' = false).
Proof.
  split; [|split].
  - intros l'. apply branchJanitor_returned.
  - intros Hc Hpre. revert l Hc.
    induction Hpre as [|[x|o] pre Hev _ IH]; intros l Hc; simpl.
    + rewrite Hc. reflexivity.
    + destruct Hev.
    + apply IH, apply_op_closed, Hc.
  - intros Hopen Hevs. revert l Hopen.
    induction Hevs as [|[nws|o] evs Hev _ IH]; intros l Hopen; simpl.
    + exists l. split; [reflexivity|exact Hopen].
    + rewrite Hopen. apply IH. exact Hopen.
    + apply IH. rewrite apply_op_stays_open; [exact Hopen|congruence].
Qed.

(** ** The transport loops, further *)


Lemma Close_twice_state (l : Listener) :
  (Close (Close l).1.2).1.2 = (Close l).1.2.
Proof.
  rewrite !Close_state. simpl. rewrite !sock_close_again. reflexivity.
Qed.

(** X11: shutdown from outside.  When Close runs while a loop waits in
    Accept (ReadFrom) and the call then fails, the loop sends nothing,
    runs its deferred Close and returns, and the listener is exactly as
    the first Close left it. *)
Theorem loops_exit_silently_after_Close
    (l : Listener) (e : error)
    (trest : list (event accept_result)) (urest : list (event read_result)) :
  handleTCPListening l (Env OpClose :: Own (AcceptFailed e) :: trest)
    = Exited (Close l).1.2 [ASetClosed; ACloseTCP; ACloseUDP; ADrain]
  ∧ handleUDPListening l (Env OpClose :: Own (ReadFailed e) :: urest)
    = Exited (Close l).1.2 [ASetClosed; ACloseTCP; ACloseUDP; ADrain].
Proof.
  unfold handleTCPListening, handleUDPListening. simpl.
  rewrite Close_closed. simpl.
  rewrite Close_twice_state, Close_log. split; reflexivity.
Qed.

(** ** Listen, when it fails *)

(** X12: when Listen fails it starts no goroutine and returns the error
    of the call that failed.  If that call is net.Listen nothing was
    opened and nothing is closed; if it is ResolveUDPAddr or ListenUDP,
    the TCP socket that was opened is closed again, and nothing else. *)
Theorem Listen_failure_releases_the_TCP_socket
    (net : NetStack) (addr : string) (e : error) (log : list action) :
  Listen net addr = (inr e, log) →
  (∀ g, AGo g ∉ log)
  ∧ ((net_Listen net addr = inr e ∧ log = [])
     ∨ (∃ tcp, net_Listen net addr = inl tcp ∧ log = [ACloseTCP]
               ∧ (net_ResolveUDPAddr net addr = inr e
                  ∨ ∃ udpAddr, net_ResolveUDPAddr net addr = inl udpAddr
                               ∧ net_ListenUDP net udpAddr = inr e))).
Proof.
  unfold Listen.
  destruct (net_Listen net addr) as [tcp|e1] eqn:E1.
  2:{ intros [= <- <-]. split; [intros g Hg; apply elem_of_nil in Hg; exact Hg|].
      left. split; reflexivity. }
  assert (Hgo : ∀ g, AGo g ∉ [ACloseTCP]).
  { intros g Hg. apply elem_of_cons in Hg as [Hg|Hg];
      [discriminate Hg|apply elem_of_nil in Hg; exact Hg]. }
  destruct (net_ResolveUDPAddr net addr) as [ua|e2] eqn:E2.
  2:{ intros [= <- <-]. split; [exact Hgo|]. right. exists tcp.
      repeat split. left. reflexivity. }
  destruct (net_ListenUDP net ua) as [udp|e3] eqn:E3; [discriminate|].
  intros [= <- <-]. split; [exact Hgo|]. right. exists tcp.
  repeat split. right. exists ua. split; [reflexivity|exact E3].
Qed.

(** ** Shutdown is permanent, and the pool stays nil *)

Lemma apply_op_sockets o (l : Listener) :
  (sock_open (tcpListener l) = false → sock_open (tcpListener (apply_op o l)) = false)
  ∧ (sock_open (udpListener l) = false → sock_open (udpListener (apply_op o l)) = false)
  ∧ udpPool (apply_op o l) = udpPool l
  ∧ udpPoolMutex (apply_op o l) = udpPoolMutex l.
Proof.
  destruct o as [|nows|resp now]; simpl.
  - rewrite Close_state. simpl. rewrite !sock_close_open. repeat split.
  - destruct (closed l); repeat split; auto.
  - destruct (accept_iter_frame l resp now) as (m & E & _). rewrite E.
    repeat split; auto.
Qed.

(** X13: no step of any goroutine undoes a Close: after Close, and
    whatever is done afterwards (arrivals, sweeps, further calls of
    Close), the closed flag is set and both sockets are closed. *)
Theorem Close_is_permanent (l : Listener) (ops : list op) :
  let l' := steps (Close l).1.2 ops in
  closed l' = true
  ∧ sock_open (tcpListener l') = false
  ∧ sock_open (udpListener l') = false.
Proof.
  simpl.
  assert (Hgen : ∀ l0 : Listener,
            closed l0 = true → sock_open (tcpListener l0) = false →
            sock_open (udpListener l0) = false →
            closed (steps l0 ops) = true
            ∧ sock_open (tcpListener (steps l0 ops)) = false
            ∧ sock_open (udpListener (steps l0 ops)) = false).
  { induction ops as [|o ops IH]; intros l0 Hc Ht Hu; [repeat split; assumption|].
    simpl. destruct (apply_op_sockets o l0) as (Ht' & Hu' & _).
    apply IH; [apply apply_op_closed, Hc|apply Ht', Ht|apply Hu', Hu]. }
  apply Hgen; [apply Close_closed|..]; rewrite Close_state; simpl;
    apply sock_close_open.
Qed.

(** X14: no function of listen.go ever assigns udpPool or udpPoolMutex:
    in a listener made by Listen they are nil, and they are still nil
    after any arrivals, sweeps and calls of Close. *)
Theorem the_pool_stays_nil
    (net : NetStack) (addr : string) (l : Listener) (log : list action)
    (ops : list op) :
  Listen net addr = (inl l, log) →
  udpPool (steps l ops) = None ∧ udpPoolMutex (steps l ops) = None.
Proof.
  intros HL.
  assert (Hnil : udpPool l = None ∧ udpPoolMutex l = None).
  { unfold Listen in HL.
    destruct (net_Listen net addr); [|discriminate].
    destruct (net_ResolveUDPAddr net addr) as [ua|]; [|discriminate].
    destruct (net_ListenUDP net ua); [|discriminate].
    injection HL as <- _. split; reflexivity. }
  clear HL. revert l Hnil.
  induction ops as [|o ops IH]; intros l [Hp Hm]; [split; assumption|].
  simpl. destruct (apply_op_sockets o l) as (_ & _ & Ep & Em).
  apply IH. rewrite Ep, Em. split; assumption.
Qed.

(** ** An error item behind retransmissions *)

(** X15: an item that carries an error is returned by the call that
    receives it, as it is (its connection, its request, its error), also
    when any number of retransmissions of cached branches arrive before it
    in the same call; those are dropped, and the listener is left exactly
    as it was: neither the retransmissions nor the error item touch the
    cache. *)
Theorem error_item_is_returned_after_retransmissions
    (l : Listener) (dups : list (event arrival)) (resp : requestPackage)
    (e : error) (now : Z) (rest : list (event arrival)) :
  closed l = false →
  Forall (suppressed l) dups →
  err resp = Some e →
  ∃ log, AcceptRequest l (dups ++ Own (resp, now) :: rest)
         = Returned (req resp) (conn resp) (Some e) l log rest.
Proof.
  intros Hopen Hdups He. unfold AcceptRequest. rewrite Hopen.
  induction Hdups as [|[[p t]|o] dups Hev _ IH]; simpl.
  - unfold accept_iter. rewrite He. eexists. reflexivity.
  - destruct Hev as (b & tb & Hc & Hl).
    rewrite (accept_iter_found _ _ _ _ _ Hc Hl), Hopen.
    destruct IH as (log & ->). eexists. reflexivity.
  - destruct Hev.
Qed.

End FurtherProperties.

(** * The further properties on the small instance *)

(** Two requests arrive, one of them twice, the janitor wakes once: the
    branch that is in the cache afterwards is a valid one. *)
Lemma X1_witness : invalid_branch "z9hG4bK-abc123" = false.
Proof.
  refine (@cache_holds_only_valid_branches demo demo_net "127.0.0.1:5060"
            demo_listener
            [@AGo demo go_branchJanitor; @AGo demo go_handleTCPListening;
             @AGo demo go_handleUDPListening]
            [@Own demo _ (demo_request "198.51.100.7:5060" "z9hG4bK-abc123", 1 * Second);
             @Own demo _ (demo_request "198.51.100.8:5060" "short", 2 * Second);
             demo_wake (10 * Second);
             @Own demo _ (demo_request "198.51.100.7:5060" "z9hG4bK-abc123", 11 * Second)]
            _ "z9hG4bK-abc123"%string (1 * Second) _).
  - reflexivity.
  - vm_compute. reflexivity.
Defined.

(** A retransmission is dropped, then a new request is returned. *)
Lemma X3_witness :
  let b1 := "z9hG4bK-abc123"%string in
  let b2 := "z9hG4bK-def456"%string in
  let p1 := demo_request "198.51.100.7:5060" b1 in
  let p2 := demo_request "198.51.100.8:5060" b2 in
  let l1 := @set_receivedBranches demo
              (<[b1 := 1 * Second]> (@receivedBranches demo demo_listener))
              demo_listener in
  let l2 := @set_receivedBranches demo
              (<[b2 := 3 * Second]> (@receivedBranches demo l1)) l1 in
  let evs := [@Own demo _ (p1, 2 * Second); @Own demo _ (p2, 3 * Second)] in
  ∃ resp now r b,
    @Own demo _ (resp, now) ∈ evs ∧ @err demo resp = None
    ∧ @req demo p2 = @req demo resp ∧ @conn demo p2 = @conn demo resp
    ∧ @req demo resp = Some r ∧ @branch_of demo r = Some b
    ∧ invalid_branch b = false
    ∧ @receivedBranches demo l2 !! b = Some now.
Proof.
  intros b1 b2 p1 p2 l1 l2 evs.
  refine (@AcceptRequest_nil_error_is_a_recorded_request demo l1 evs
            (@req demo p2) (@conn demo p2) l2
            [@ALock demo; @ALookup demo b1; @AUnlock demo;
             @ALock demo; @ALookup demo b2; @AStore demo b2 (3 * Second);
             @AUnlock demo]
            [] _).
  reflexivity.
Defined.

(** Five calls over three arrivals of one branch and one of another. *)
Lemma X4_witness :
  let p1 := demo_request "198.51.100.7:5060" "z9hG4bK-abc123" in
  let p2 := demo_request "198.51.100.8:5060" "z9hG4bK-def456" in
  NoDup (@delivered_branches demo
           (@calls demo 5 demo_listener
              [@Own demo _ (p1, 1 * Second); @Own demo _ (p1, 2 * Second);
               @Own demo _ (p2, 3 * Second); @Env demo _ (@OpClose demo);
               @Own demo _ (p1, 4 * Second)])).
Proof.
  intros p1 p2.
  apply (@no_branch_is_delivered_twice demo).
  repeat (constructor; [exact I|]). constructor.
Defined.

Lemma X5_witness :
  let p1 := demo_request "198.51.100.7:5060" "z9hG4bK-abc123" in
  let evs := [@Own demo _ (p1, 1 * Second); @Own demo _ (p1, 2 * Second)] in
  ∃ m, @after demo demo_listener evs = @set_receivedBranches demo m demo_listener
       ∧ @receivedBranches demo demo_listener ⊆ m.
Proof.
  intros p1 evs.
  apply (@AcceptRequest_only_extends_the_cache demo demo_listener evs).
  repeat (constructor; [exact I|]). constructor.
Defined.

(** The item {conn, nil, nil}. *)
Lemma X7_witness :
  @AcceptRequest demo demo_listener
    [@Own demo _ (@mkPackage demo (Some "198.51.100.7:5060"%string) None None,
                  1 * Second)]
  = @Panicked demo demo_listener [].
Proof.
  refine (proj2 (@AcceptRequest_panics_only_on_an_empty_item demo demo_listener [])
            (Some "198.51.100.7:5060"%string) (1 * Second) _).
  reflexivity.
Defined.

(** An entry recorded at 5 seconds; the janitor wakes at 10, 20, 30 and 40
    seconds. *)
Lemma X8_witness :
  let l1 := @set_receivedBranches demo
              (<[("z9hG4bK-abc123"%string) := 5 * Second]>
                 (@receivedBranches demo demo_listener))
              demo_listener in
  let wakes := [λ _ : string, 10 * Second; λ _ : string, 20 * Second;
                λ _ : string, 30 * Second; λ _ : string, 40 * Second] in
  ∃ m, @branchJanitor demo l1 (map (@Own demo _) wakes)
         = @JanitorSleeping demo (@set_receivedBranches demo m l1)
       ∧ ∀ b t, m !! b = Some t ↔
                @receivedBranches demo l1 !! b = Some t
                ∧ Forall (λ nows : string → Z, nows b - t ≤ 30 * Second) wakes.
Proof.
  intros l1 wakes.
  apply (@branchJanitor_keeps_the_young_entries demo l1 wakes).
  reflexivity.
Defined.

(** Close runs while the janitor sleeps. *)
Lemma X9_witness :
  let lc := (@Close demo demo_listener).1.2 in
  @branchJanitor demo lc
    ([@Env demo (string → Z) (@OpClose demo)] ++ [@Own demo (string → Z) (λ _ : string, 10 * Second)])
  = @JanitorReturned demo (@env_steps demo (string → Z) lc [@Env demo (string → Z) (@OpClose demo)]).
Proof.
  intros lc.
  refine (proj1 (proj2
    (@branchJanitor_returns_when_it_finds_closed demo lc []
       [@Env demo (string → Z) (@OpClose demo)] [] (λ _ : string, 10 * Second))) _ _).
  - reflexivity.
  - repeat (constructor; [exact I|]). constructor.
Defined.


(** The UDP port is taken: the TCP socket is closed again. *)
Lemma X12_witness :
  let e := ErrExternal "listen udp: address already in use" in
  (@net_Listen demo demo_net_udp_taken "127.0.0.1:5060" = inr e
   ∧ [@ACloseTCP demo] = [])
  ∨ (∃ tcp, @net_Listen demo demo_net_udp_taken "127.0.0.1:5060" = inl tcp
            ∧ [@ACloseTCP demo] = [@ACloseTCP demo]
            ∧ (@net_ResolveUDPAddr demo demo_net_udp_taken "127.0.0.1:5060" = inr e
               ∨ ∃ udpAddr,
                   @net_ResolveUDPAddr demo demo_net_udp_taken "127.0.0.1:5060"
                     = inl udpAddr
                   ∧ @net_ListenUDP demo demo_net_udp_taken udpAddr = inr e)).
Proof.
  intros e.
  refine (proj2 (@Listen_failure_releases_the_TCP_socket demo demo_net_udp_taken
                   "127.0.0.1:5060" e [@ACloseTCP demo] _)).
  reflexivity.
Defined.

Lemma X14_witness :
  let ops := [@OpDeliver demo (demo_request "198.51.100.7:5060" "z9hG4bK-abc123")
                (1 * Second);
              @OpSweep demo (λ _ : string, 40 * Second); @OpClose demo] in
  @udpPool demo (@steps demo demo_listener ops) = None
  ∧ @udpPoolMutex demo (@steps demo demo_listener ops) = None.
Proof.
  intros ops.
  apply (@the_pool_stays_nil demo demo_net "127.0.0.1:5060" demo_listener
           [@AGo demo go_branchJanitor; @AGo demo go_handleTCPListening;
            @AGo demo go_handleUDPListening] ops).
  reflexivity.
Defined.

(** Two retransmissions arrive, then the error item of a transport loop. *)
Lemma X15_witness :
  let b := "z9hG4bK-abc123"%string in
  let p := demo_request "198.51.100.7:5060" b in
  let l1 := @set_receivedBranches demo
              (<[b := 1 * Second]> (@receivedBranches demo demo_listener))
              demo_listener in
  let e := ErrExternal "accept: too many open files" in
  ∃ log, @AcceptRequest demo l1
           ([@Own demo _ (p, 2 * Second); @Own demo _ (p, 3 * Second)]
            ++ [@Own demo _ (@error_item demo e, 4 * Second)])
         = @Returned demo None None (Some e) l1 log [].
Proof.
  intros b p l1 e.
  refine (@error_item_is_returned_after_retransmissions demo l1
            [@Own demo _ (p, 2 * Second); @Own demo _ (p, 3 * Second)]
            (@error_item demo e) e (4 * Second) [] _ _ _).
  - reflexivity.
  - repeat (constructor;
            [exists b, (1 * Second); split; [demo_carries|reflexivity]|]).
    constructor.
  - reflexivity.
Defined.
